(** * Mergington High School activities: the registration service and the
      issue-seeding script, embedded and verified.

    [App] follows [src/app.py]: the SQLite store with its two tables, the
    seeding done by [init_db], and the three handlers [get_activities],
    [signup_for_activity] and [unregister_from_activity].
    [CreateIssues] follows [create_issues.py]: argument validation, the
    preview mode and the loop that posts one issue per record. *)

From Stdlib Require Import ZArith.
From stdpp Require Import gmap strings list sorting pretty.

Open Scope Z_scope.

(** ** Results of fallible code *)

(** What a Python call can raise in [src/app.py]: the [HTTPException]s the
    handlers raise themselves, and [sqlite3.IntegrityError], which an
    [INSERT] raises when it would break a [PRIMARY KEY]. *)
Inductive exn : Type :=
  | HTTPException (status_code : Z) (detail : string)
  | IntegrityError.

Inductive result (A : Type) : Type :=
  | Ok (a : A)
  | Raise (e : exn).
Arguments Ok {A} a.
Arguments Raise {A} e.

(** Sequencing stops at the first exception. *)
#[global] Instance result_ret : MRet result := @Ok.
#[global] Instance result_bind : MBind result := λ A B k m,
  match m with
  | Ok a => k a
  | Raise e => Raise e
  end.

#[global] Instance exn_eq_dec : EqDecision exn.
Proof. solve_decision. Defined.

Module App.

(** ** The store *)

(** A row of [activities]: (name, description, schedule, max_participants).
    A row of [participants]: (activity_name, email).  Each table is kept in
    rowid order, that is the order in which its rows were inserted. *)
Abbreviation activity_row := (string * string * string * Z)%type (only parsing).
Abbreviation participant_row := (string * string)%type (only parsing).

Record store : Type := Store {
  tbl_activities : list activity_row;
  tbl_participants : list participant_row
}.

Definition row_name (r : activity_row) : string := r.1.1.1.
Definition row_max (r : activity_row) : Z := r.2.

(** The database before any table holds a row ([CREATE TABLE IF NOT EXISTS]
    makes no difference between a missing table and an empty one). *)
Definition empty_store : store := Store [] [].

(** The values of the [INITIAL_ACTIVITIES] dictionary, and of the dictionary
    [build_activity_dict] returns. *)
Record activity_data : Type := ActivityData {
  description : string;
  schedule : string;
  max_participants : Z;
  participants : list string
}.

#[global] Instance activity_data_eq_dec : EqDecision activity_data.
Proof. solve_decision. Defined.

Definition INITIAL_ACTIVITIES : list (string * activity_data) :=
  [ ("Chess Club",
     ActivityData "Learn strategies and compete in chess tournaments"
       "Fridays, 3:30 PM - 5:00 PM" 12
       ["michael@mergington.edu"; "daniel@mergington.edu"]);
    ("Programming Class",
     ActivityData "Learn programming fundamentals and build software projects"
       "Tuesdays and Thursdays, 3:30 PM - 4:30 PM" 20
       ["emma@mergington.edu"; "sophia@mergington.edu"]);
    ("Gym Class",
     ActivityData "Physical education and sports activities"
       "Mondays, Wednesdays, Fridays, 2:00 PM - 3:00 PM" 30
       ["john@mergington.edu"; "olivia@mergington.edu"]);
    ("Soccer Team",
     ActivityData "Join the school soccer team and compete in matches"
       "Tuesdays and Thursdays, 4:00 PM - 5:30 PM" 22
       ["liam@mergington.edu"; "noah@mergington.edu"]);
    ("Basketball Team",
     ActivityData "Practice and play basketball with the school team"
       "Wednesdays and Fridays, 3:30 PM - 5:00 PM" 15
       ["ava@mergington.edu"; "mia@mergington.edu"]);
    ("Art Club",
     ActivityData "Explore your creativity through painting and drawing"
       "Thursdays, 3:30 PM - 5:00 PM" 15
       ["amelia@mergington.edu"; "harper@mergington.edu"]);
    ("Drama Club",
     ActivityData "Act, direct, and produce plays and performances"
       "Mondays and Wednesdays, 4:00 PM - 5:30 PM" 20
       ["ella@mergington.edu"; "scarlett@mergington.edu"]);
    ("Math Club",
     ActivityData "Solve challenging problems and participate in math competitions"
       "Tuesdays, 3:30 PM - 4:30 PM" 10
       ["james@mergington.edu"; "benjamin@mergington.edu"]);
    ("Debate Team",
     ActivityData "Develop public speaking and argumentation skills"
       "Fridays, 4:00 PM - 5:30 PM" 12
       ["charlotte@mergington.edu"; "henry@mergington.edu"]) ].

(** ** The SQL statements *)

(** [SELECT max_participants FROM activities WHERE name = ?], [fetchone]. *)
Definition select_max_participants (s : store) (activity_name : string) : option Z :=
  (λ found, row_max found.2) <$> list_find (λ r, row_name r = activity_name) (tbl_activities s).

(** [SELECT 1 FROM activities WHERE name = ?], [fetchone() is None] negated. *)
Definition activity_exists (s : store) (activity_name : string) : bool :=
  bool_decide (Exists (λ r, row_name r = activity_name) (tbl_activities s)).

(** [SELECT 1 FROM participants WHERE activity_name = ? AND email = ?],
    [fetchone() is not None]. *)
Definition is_registered (s : store) (activity_name email : string) : bool :=
  bool_decide ((activity_name, email) ∈ tbl_participants s).

(** The rows of [participants] that belong to one activity, in rowid order. *)
Definition rows_of (s : store) (activity_name : string) : list participant_row :=
  filter (λ r, r.1 = activity_name) (tbl_participants s).

(** [SELECT COUNT( * ) FROM participants WHERE activity_name = ?]. *)
Definition count_participants (s : store) (activity_name : string) : Z :=
  Z.of_nat (length (rows_of s activity_name)).

(** [SELECT COUNT( * ) FROM activities]. *)
Definition count_activities (s : store) : Z :=
  Z.of_nat (length (tbl_activities s)).

(** [SELECT email FROM participants WHERE activity_name = ?], [fetchall].
    The statement has no ORDER BY.  SQLite answers it from the index that
    backs [PRIMARY KEY(activity_name, email)] (a covering index for this
    query: SEARCH participants USING COVERING INDEX
    sqlite_autoindex_participants_1), whose entries for one activity are in
    ascending byte order of [email] (the BINARY collation, which is
    [String.le]); the rows come back in that order, not in rowid order. *)
Definition select_emails (s : store) (activity_name : string) : list string :=
  merge_sort String.le ((λ r, r.2) <$> rows_of s activity_name).

(** [INSERT INTO activities(...) VALUES (?, ?, ?, ?)]: [name] is the primary
    key. *)
Definition insert_activity (s : store) (r : activity_row) : result store :=
  if activity_exists s (row_name r) then Raise IntegrityError
  else Ok (Store (tbl_activities s ++ [r]) (tbl_participants s)).

(** [INSERT INTO participants(activity_name, email) VALUES (?, ?)]: the pair
    is the primary key.  The foreign key to [activities] is declared but not
    enforced, since no connection issues [PRAGMA foreign_keys = ON]. *)
Definition insert_participant (s : store) (activity_name email : string) : result store :=
  if is_registered s activity_name email then Raise IntegrityError
  else Ok (Store (tbl_activities s) (tbl_participants s ++ [(activity_name, email)])).

(** [DELETE FROM participants WHERE activity_name = ? AND email = ?]. *)
Definition delete_participant (s : store) (activity_name email : string) : store :=
  Store (tbl_activities s)
        (filter (λ r, r ≠ (activity_name, email)) (tbl_participants s)).

(** ** [init_db] *)

(** The inner loop of [init_db]: [for p in data["participants"]]. *)
Fixpoint seed_participants (s : store) (name : string) (ps : list string) : result store :=
  match ps with
  | [] => Ok s
  | p :: ps' => s' ← insert_participant s name p; seed_participants s' name ps'
  end.

(** The outer loop: [for name, data in INITIAL_ACTIVITIES.items()]. *)
Fixpoint seed_activities (s : store) (items : list (string * activity_data)) : result store :=
  match items with
  | [] => Ok s
  | (name, data) :: items' =>
      s1 ← insert_activity s (name, description data, schedule data, max_participants data);
      s2 ← seed_participants s1 name (participants data);
      seed_activities s2 items'
  end.

(** [init_db]: seed when [activities] has no row.  The inserts run in one
    transaction that [conn.commit()] ends; when an insert raises, nothing
    was committed and the store keeps its rows. *)
Definition init_db (s : store) : result unit * store :=
  if count_activities s =? 0 then
    match seed_activities s INITIAL_ACTIVITIES with
    | Ok s' => (Ok (), s')
    | Raise e => (Raise e, s)
    end
  else (Ok (), s).

(** ** The handlers *)

(** The body of the loop of [build_activity_dict]: the entry of one row is
    assigned under the row's name. *)
Definition add_entry (s : store) (activities : gmap string activity_data)
    (row : activity_row) : gmap string activity_data :=
  let '(name, description, schedule, max_participants) := row in
  let participants := select_emails s name in
  <[name := ActivityData description schedule max_participants participants]> activities.

(** [build_activity_dict]: the loop over the rows of [activities], from an
    empty dictionary. *)
Definition build_activity_dict (s : store) : gmap string activity_data :=
  foldl (add_entry s) ∅ (tbl_activities s).

Definition get_activities (s : store) : result (gmap string activity_data) * store :=
  (Ok (build_activity_dict s), s).

Definition NotFound : exn := HTTPException 404 "Activity not found".
Definition AlreadyRegistered : exn := HTTPException 400 "Student is already signed up".
Definition Full : exn := HTTPException 400 "Activity is full".
Definition NotRegistered : exn := HTTPException 400 "Student is not signed up for this activity".

Definition signup_message (activity_name email : string) : string :=
  "Signed up " +:+ email +:+ " for " +:+ activity_name.

Definition unregister_message (activity_name email : string) : string :=
  "Unregistered " +:+ email +:+ " from " +:+ activity_name.

Definition signup_for_activity (s : store) (activity_name email : string) : result string * store :=
  match select_max_participants s activity_name with
  | None => (Raise NotFound, s)
  | Some max_participants =>
      if is_registered s activity_name email then (Raise AlreadyRegistered, s)
      else
        let count := count_participants s activity_name in
        if count >=? max_participants then (Raise Full, s)
        else
          match insert_participant s activity_name email with
          | Ok s' => (Ok (signup_message activity_name email), s')
          | Raise e => (Raise e, s)
          end
  end.

Definition unregister_from_activity (s : store) (activity_name email : string) : result string * store :=
  if negb (activity_exists s activity_name) then (Raise NotFound, s)
  else if negb (is_registered s activity_name email) then (Raise NotRegistered, s)
  else (Ok (unregister_message activity_name email), delete_participant s activity_name email).

(** The store once [init_db] has run on an empty database. *)
Definition seeded : store := (init_db empty_store).2.

(** ** Schema constraints, invariants and reachable states *)

(** [name TEXT PRIMARY KEY]: no two rows of [activities] share a name. *)
Definition pk_activities (s : store) : Prop := NoDup (row_name <$> tbl_activities s).

(** I1, which is [PRIMARY KEY(activity_name, email)]: no pair twice. *)
Definition I1 (s : store) : Prop := NoDup (tbl_participants s).

(** I2: no activity has more registrations than its [max_participants]. *)
Definition I2 (s : store) : Prop :=
  ∀ r, r ∈ tbl_activities s → count_participants s (row_name r) ≤ row_max r.

(** The two writing operations, and the store each leaves behind (the same
    store when the handler raises). *)
Inductive op : Type :=
  | SignUp (activity_name email : string)
  | Unregister (activity_name email : string).

Definition exec (s : store) (o : op) : store :=
  match o with
  | SignUp activity_name email => (signup_for_activity s activity_name email).2
  | Unregister activity_name email => (unregister_from_activity s activity_name email).2
  end.

(** The emails registered for an activity, in the order of their insertion. *)
Definition emails_in_insertion_order (s : store) (activity_name : string) : list string :=
  (rows_of s activity_name).*2.

(** The entry [build_activity_dict] makes for a row. *)
Definition entry_of (s : store) (r : activity_row) : activity_data :=
  let '(name, description, schedule, max_participants) := r in
  ActivityData description schedule max_participants (select_emails s name).

(** A text occurs inside another one. *)
Definition mentions (message part : string) : Prop :=
  ∃ before after, message = before +:+ part +:+ after.

(** The rows the seeding loops insert for a dictionary of activities, in the
    order of their insertion. *)
Definition activity_rows_of (items : list (string * activity_data)) : list activity_row :=
  (λ item, (item.1, description item.2, schedule item.2, max_participants item.2)) <$> items.

Definition participant_rows_of (items : list (string * activity_data)) : list participant_row :=
  item ← items; (λ p, (item.1, p)) <$> participants item.2.

Definition seed_activity_rows : list activity_row := activity_rows_of INITIAL_ACTIVITIES.

Definition seed_participant_rows : list participant_row :=
  participant_rows_of INITIAL_ACTIVITIES.

(** The schema constraint on [activities] together with I1 and I2. *)
Definition inv (s : store) : Prop := pk_activities s ∧ I1 s ∧ I2 s.

(** A small store whose single activity is full. *)
Definition full_store : store :=
  Store [("Robotics", "Build robots", "Mondays", 1)] [("Robotics", "ann@mergington.edu")].

(** A database whose [activities] table was cleared while a seeded
    registration stayed behind in [participants]. *)
Definition cleared_store : store :=
  Store [] [("Chess Club", "michael@mergington.edu")].


(** ** More statements about a store *)

(** [FOREIGN KEY(activity_name) REFERENCES activities(name)] read as a
    statement: every registration names an activity of the table.  SQLite
    does not check it on these connections; the handlers keep it. *)
Definition fk_participants (s : store) : Prop :=
  ∀ r, r ∈ tbl_participants s → ∃ a, a ∈ tbl_activities s ∧ row_name a = r.1.

(** The activity an operation is about. *)
Definition op_activity (o : op) : string :=
  match o with
  | SignUp activity_name _ => activity_name
  | Unregister activity_name _ => activity_name
  end.

(** What the handler of an operation returns or raises. *)
Definition answer (s : store) (o : op) : result string :=
  match o with
  | SignUp activity_name email => (signup_for_activity s activity_name email).1
  | Unregister activity_name email => (unregister_from_activity s activity_name email).1
  end.

(** The status FastAPI answers with when a handler raises: the status of
    an [HTTPException], and 500 for any other exception. *)
Definition http_status (e : exn) : Z :=
  match e with
  | HTTPException status_code _ => status_code
  | IntegrityError => 500
  end.
End App.

Module CreateIssues.

(** ** Data *)

(** One record of [issues_data.json], and the [data] of a request. *)
Record issue : Type := Issue {
  title : string;
  body : string;
  labels : list string
}.

(** The JSON object of a [201 Created] answer, with the keys the script
    reads.  It is a dictionary with keys, so [if result:] holds for it. *)
Record created_issue : Type := CreatedIssue {
  html_url : string;
  number : Z;
  created_title : string
}.

Record response : Type := Response {
  status_code : Z;
  text : string;
  json : created_issue
}.

Record request : Type := Request {
  url : string;
  headers : list (string * string);
  data : issue
}.

(** What the script does to the outside: a line handed to [print], or a
    [requests.post]. *)
Inductive event : Type :=
  | Print (line : string)
  | Post (r : request).

#[global] Instance issue_eq_dec : EqDecision issue.
Proof. solve_decision. Defined.
#[global] Instance request_eq_dec : EqDecision request.
Proof. solve_decision. Defined.
#[global] Instance event_eq_dec : EqDecision event.
Proof. solve_decision. Defined.

(** What [json.load] on the opened file comes to. *)
Inductive load_result : Type :=
  | FileNotFoundError
  | JSONDecodeError (e : string)
  | Loaded (issues : list issue).

(** The outside of the script: the file system, and the remote API, which
    answers the [n]-th call (from 0) with [remote n]. *)
Record world : Type := World {
  files : string → load_result;
  remote : nat → response
}.

(** The command line and the two environment variables. *)
Record invocation : Type := Invocation {
  opt_token : option string;
  opt_repo : option string;
  opt_dry_run : bool;
  opt_file : option string;
  GITHUB_TOKEN : option string;
  GITHUB_REPOSITORY : option string
}.

(** The namespace [parser.parse_args()] returns. *)
Record namespace : Type := Namespace {
  token : option string;
  repo : option string;
  dry_run : bool;
  file : string
}.

(** ** Running a script: a trace of events, and [sys.exit] *)

Inductive outcome (A : Type) : Type :=
  | Done (a : A)
  | Exit (code : Z).
Arguments Done {A} a.
Arguments Exit {A} code.

Definition proc (A : Type) : Type := list event → list event * outcome A.

#[global] Instance proc_ret : MRet proc := λ A a tr, (tr, Done a).
#[global] Instance proc_bind : MBind proc := λ A B k m tr,
  match m tr with
  | (tr', Done a) => k a tr'
  | (tr', Exit code) => (tr', Exit code)
  end.

Definition print (line : string) : proc unit := λ tr, (tr ++ [Print line], Done ()).

Definition sys_exit {A : Type} (code : Z) : proc A := λ tr, (tr, Exit code).

(** The requests of a trace, in the order they were made. *)
Definition posts (tr : list event) : list request :=
  omap (λ e, match e with Post r => Some r | Print _ => None end) tr.

(** [requests.post]: the call is recorded, the remote answers. *)
Definition requests_post (w : world) (r : request) : proc response :=
  λ tr, (tr ++ [Post r], Done (remote w (length (posts tr)))).

(** ** Python values as text *)

Definition nl : string := String (Ascii.ascii_of_nat 10) "".

(** [str(x)] for an optional string: [None] prints as its name. *)
Definition py_str (o : option string) : string := default "None" o.

(** [bool(x)] for an optional string. *)
Definition truthy (o : option string) : bool :=
  match o with
  | Some s => negb (bool_decide (s = ""))
  | None => false
  end.

(** ["=" * 80]. *)
Definition rule : string := Stdlib.Strings.String.concat "" (replicate 80 "=").

(** ** The script *)

(** [add_argument(..., default=os.environ.get(...))]. *)
Definition parse_args (inv : invocation) : namespace :=
  Namespace (from_option Some (GITHUB_TOKEN inv) (opt_token inv))
            (from_option Some (GITHUB_REPOSITORY inv) (opt_repo inv))
            (opt_dry_run inv)
            (default "issues_data.json" (opt_file inv)).

Definition load_issues_data (w : world) (file_path : string) : proc (list issue) :=
  match files w file_path with
  | Loaded issues => mret issues
  | FileNotFoundError =>
      print ("Error: " +:+ file_path +:+ " not found");; sys_exit 1
  | JSONDecodeError e =>
      print ("Error: Invalid JSON in " +:+ file_path +:+ ": " +:+ e);; sys_exit 1
  end.

Definition create_github_issue (w : world) (token repo : option string)
    (title body : string) (labels : list string) : proc (option created_issue) :=
  let url := "https://api.github.com/repos/" +:+ py_str repo +:+ "/issues" in
  let headers :=
    [ ("Authorization", "token " +:+ py_str token);
      ("Accept", "application/vnd.github.v3+json");
      ("Content-Type", "application/json") ] in
  let data := Issue title body labels in
  response ← requests_post w (Request url headers data);
  if status_code response =? 201 then mret (Some (json response))
  else
    print ("Error creating issue '" +:+ title +:+ "': " +:+ pretty (status_code response));;
    print ("Response: " +:+ text response);;
    mret None.

(** The preview loop: [for i, issue in enumerate(issues, 1)]. *)
Fixpoint preview_loop (i : nat) (issues : list issue) : proc unit :=
  match issues with
  | [] => mret ()
  | issue :: rest =>
      print (nl +:+ pretty i +:+ ". " +:+ title issue);;
      print ("   Labels: " +:+ Stdlib.Strings.String.concat ", " (labels issue));;
      print ("   Body preview: " +:+ Stdlib.Strings.String.substring 0 100 (body issue) +:+ "...");;
      preview_loop (S i) rest
  end.

(** The creating loop: [for i, issue_data in enumerate(issues, 1)], with the
    two lists it appends to. *)
Fixpoint create_loop (w : world) (args : namespace) (total i : nat) (issues : list issue)
    (created_issues : list created_issue) (failed_issues : list string)
    : proc (list created_issue * list string) :=
  match issues with
  | [] => mret (created_issues, failed_issues)
  | issue_data :: rest =>
      print (nl +:+ "[" +:+ pretty i +:+ "/" +:+ pretty total +:+ "] Creating: " +:+ title issue_data);;
      result ← create_github_issue w (token args) (repo args)
                 (title issue_data) (body issue_data) (labels issue_data);
      match result with
      | Some created =>
          print ("✓ Created: " +:+ html_url created);;
          create_loop w args total (S i) rest (created_issues ++ [created]) failed_issues
      | None =>
          print "✗ Failed to create issue";;
          create_loop w args total (S i) rest created_issues (failed_issues ++ [title issue_data])
      end
  end.

Fixpoint print_created (created_issues : list created_issue) : proc unit :=
  match created_issues with
  | [] => mret ()
  | issue :: rest =>
      print ("  - #" +:+ pretty (number issue) +:+ ": " +:+ created_title issue);;
      print ("    " +:+ html_url issue);;
      print_created rest
  end.

Fixpoint print_failed (failed_issues : list string) : proc unit :=
  match failed_issues with
  | [] => mret ()
  | title :: rest => print ("  - " +:+ title);; print_failed rest
  end.

Definition main (w : world) (inv : invocation) : proc unit :=
  let args := parse_args inv in
  (if negb (dry_run args) && negb (truthy (token args)) then
     print "Error: GitHub token is required. Provide via --token or GITHUB_TOKEN env var";;
     sys_exit 1
   else mret ());;
  (if negb (truthy (repo args)) then
     print "Error: Repository is required. Provide via --repo or GITHUB_REPOSITORY env var";;
     sys_exit 1
   else mret ());;
  issues ← load_issues_data w (file args);
  print ("Loaded " +:+ pretty (length issues) +:+ " issues from " +:+ file args);;
  if dry_run args then
    print (nl +:+ "DRY RUN - Issues that would be created:");;
    print rule;;
    preview_loop 1 issues;;
    print (nl +:+ rule);;
    print (nl +:+ "To create these issues, run without --dry-run flag")
  else
    print (nl +:+ "Creating issues in repository: " +:+ py_str (repo args));;
    print rule;;
    '(created_issues, failed_issues) ← create_loop w args (length issues) 1 issues [] [];
    print (nl +:+ rule);;
    print (nl +:+ "Summary:");;
    print ("  Total issues: " +:+ pretty (length issues));;
    print ("  Successfully created: " +:+ pretty (length created_issues));;
    print ("  Failed: " +:+ pretty (length failed_issues));;
    (if bool_decide (created_issues ≠ []) then
       print (nl +:+ "✓ Created issues:");;
       print_created created_issues
     else mret ());;
    (if bool_decide (failed_issues ≠ []) then
       print (nl +:+ "✗ Failed issues:");;
       print_failed failed_issues;;
       sys_exit 1
     else mret ());;
    print (nl +:+ "✓ All issues created successfully!").

(** The process: its trace from an empty one, and its exit status. *)
Definition run (w : world) (inv : invocation) : list event * Z :=
  match main w inv [] with
  | (tr, Done _) => (tr, 0)
  | (tr, Exit code) => (tr, code)
  end.

(** ** What the claims speak about *)

Definition exit_status (w : world) (inv : invocation) : Z := (run w inv).2.

Definition trace (w : world) (inv : invocation) : list event := (run w inv).1.

(** The two error lines of the validation in [main]. *)
Definition token_error : string :=
  "Error: GitHub token is required. Provide via --token or GITHUB_TOKEN env var".

Definition repo_error : string :=
  "Error: Repository is required. Provide via --repo or GITHUB_REPOSITORY env var".

(** The request [create_github_issue] builds for a record. *)
Definition request_for (args : namespace) (i : issue) : request :=
  Request ("https://api.github.com/repos/" +:+ py_str (repo args) +:+ "/issues")
          [ ("Authorization", "token " +:+ py_str (token args));
            ("Accept", "application/vnd.github.v3+json");
            ("Content-Type", "application/json") ]
          (Issue (title i) (body i) (labels i)).

(** The [k]-th record of the file failed: the remote did not answer 201. *)
Definition failed_at (w : world) (k : nat) : Prop := status_code (remote w k) ≠ 201.

(** What the creating loop adds to [created_issues] and to [failed_issues]
    for the records it still has to go through, the first of them being
    answered by the [k]-th call. *)
Fixpoint outcomes (w : world) (k : nat) (issues : list issue)
    : list created_issue * list string :=
  match issues with
  | [] => ([], [])
  | issue_data :: rest =>
      let later := outcomes w (S k) rest in
      if status_code (remote w k) =? 201
      then (json (remote w k) :: later.1, later.2)
      else (later.1, title issue_data :: later.2)
  end.

(** The line [create_github_issue] logs for a failed record. *)
Definition error_line (w : world) (k : nat) (i : issue) : string :=
  "Error creating issue '" +:+ title i +:+ "': " +:+ pretty (status_code (remote w k)).

(** Sample runs: a file of three records whose second is refused by the
    remote, and a preview without a token. *)
Definition sample_issues : list issue :=
  [ Issue "Add tests" "Cover the signup handler" ["testing"];
    Issue "Fix race" "Wrap the checks and the insert in a transaction" ["bug"; "backend"];
    Issue "Write docs" "Describe the endpoints" [] ].

Definition sample_world : world :=
  World (λ _, Loaded sample_issues)
        (λ n, if (n =? 1)%nat
              then Response 422 "Validation Failed" (CreatedIssue "" 0 "")
              else Response 201 "" (CreatedIssue "https://github.com/o/r/issues/1" 1 "created")).

Definition sample_invocation : invocation :=
  Invocation (Some "ghp_token") (Some "o/r") false None None None.

Definition preview_invocation : invocation :=
  Invocation None (Some "o/r") true None None None.


(** ** The report at the end of a creating run *)

Definition success_line : string := nl +:+ "✓ All issues created successfully!".

(** The lines [main] prints for the issues that were created. *)
Definition created_lines (created_issues : list created_issue) : list string :=
  issue ← created_issues;
  [ "  - #" +:+ pretty (number issue) +:+ ": " +:+ created_title issue;
    "    " +:+ html_url issue ].

(** The lines [main] prints after the loop, from the two lists the loop
    has filled and the number of records. *)
Definition report_lines (total : nat) (created_issues : list created_issue)
    (failed_issues : list string) : list string :=
  [ nl +:+ rule;
    nl +:+ "Summary:";
    "  Total issues: " +:+ pretty total;
    "  Successfully created: " +:+ pretty (length created_issues);
    "  Failed: " +:+ pretty (length failed_issues) ]
  ++ (if bool_decide (created_issues ≠ [])
      then (nl +:+ "✓ Created issues:") :: created_lines created_issues
      else [])
  ++ (if bool_decide (failed_issues ≠ [])
      then (nl +:+ "✗ Failed issues:") :: ((λ title, "  - " +:+ title) <$> failed_issues)
      else [success_line]).

End CreateIssues.

(** * The registration service *)

Module AppProofs.
Import App.

(** Settle a decidable statement about concrete data by evaluation. *)
Ltac by_compute :=
  match goal with
  | |- ?P => apply (bool_decide_unpack P); vm_compute; exact I
  end.

(** ** The queries, read as statements about the tables *)

Lemma select_max_None s a :
  select_max_participants s a = None ↔ ∀ r, r ∈ tbl_activities s → row_name r ≠ a.
Proof.
  unfold select_max_participants. rewrite fmap_None, list_find_None, Forall_forall.
  done.
Qed.

Lemma select_max_Some s a m :
  select_max_participants s a = Some m →
  ∃ r, r ∈ tbl_activities s ∧ row_name r = a ∧ row_max r = m.
Proof.
  unfold select_max_participants. intros H.
  apply fmap_Some in H as ([i r] & Hfind & ->).
  apply list_find_Some in Hfind as (Hi & Hr & _).
  exists r. split; [by eapply list_elem_of_lookup_2|done].
Qed.

Lemma select_max_unique s a r :
  pk_activities s → r ∈ tbl_activities s → row_name r = a →
  select_max_participants s a = Some (row_max r).
Proof.
  unfold pk_activities, select_max_participants. intros Hpk Hin Hname.
  destruct (list_find _ _) as [[i r']|] eqn:Hfind; simpl.
  - apply list_find_Some in Hfind as (Hi & Hr' & _).
    apply list_elem_of_lookup in Hin as [j Hj].
    assert (i = j) as ->.
    { eapply NoDup_lookup; [exact Hpk| |]; rewrite list_lookup_fmap.
      - by rewrite Hi.
      - rewrite Hj. simpl. congruence. }
    congruence.
  - apply list_find_None in Hfind. rewrite Forall_forall in Hfind.
    by destruct (Hfind r Hin).
Qed.

Lemma activity_exists_spec s a :
  activity_exists s a = true ↔ ∃ r, r ∈ tbl_activities s ∧ row_name r = a.
Proof.
  unfold activity_exists. rewrite bool_decide_eq_true, Exists_exists. done.
Qed.

Lemma activity_exists_select s a :
  activity_exists s a = bool_decide (is_Some (select_max_participants s a)).
Proof.
  destruct (select_max_participants s a) as [m|] eqn:H.
  - rewrite bool_decide_true by eauto. apply activity_exists_spec.
    apply select_max_Some in H as (r & ? & ? & _). eauto.
  - rewrite bool_decide_false by (by intros [? ?]).
    apply not_true_is_false. rewrite activity_exists_spec.
    intros (r & Hin & Hr). rewrite select_max_None in H. by eapply H.
Qed.

Lemma is_registered_spec s a e :
  is_registered s a e = true ↔ (a, e) ∈ tbl_participants s.
Proof. unfold is_registered. apply bool_decide_eq_true. Qed.

Lemma is_registered_false s a e :
  is_registered s a e = false ↔ (a, e) ∉ tbl_participants s.
Proof. unfold is_registered. apply bool_decide_eq_false. Qed.

(** ** Counting rows *)

Lemma rows_of_app ps qs acts a :
  rows_of (Store acts (ps ++ qs)) a = rows_of (Store acts ps) a ++ rows_of (Store acts qs) a.
Proof. unfold rows_of. simpl. apply filter_app. Qed.

Lemma count_insert s a e a' :
  count_participants (Store (tbl_activities s) (tbl_participants s ++ [(a, e)])) a'
  = count_participants s a' + (if decide (a = a') then 1 else 0).
Proof.
  unfold count_participants, rows_of. simpl. rewrite filter_app, length_app.
  rewrite filter_cons, filter_nil. simpl.
  repeat case_decide; simpl in *; try congruence. all: lia.
Qed.

Lemma rows_of_delete_other s a e a' :
  a' ≠ a → rows_of (delete_participant s a e) a' = rows_of s a'.
Proof.
  intros Hne. unfold rows_of, delete_participant. simpl.
  rewrite list_filter_filter. apply list_filter_iff.
  intros [b x]. simpl. split; [by intros [? _]|].
  intros Hb. split; [done|]. intros [= Hba _]. apply Hne. congruence.
Qed.

Lemma count_delete_le s a e a' :
  count_participants (delete_participant s a e) a' ≤ count_participants s a'.
Proof.
  unfold count_participants, rows_of, delete_participant. simpl.
  rewrite list_filter_filter.
  apply inj_le. induction (tbl_participants s) as [|r l IH]; [done|].
  rewrite !filter_cons. repeat case_decide; simpl in *; try lia.
  by destruct H.
Qed.

Lemma filter_all {A} (P : A → Prop) `{!∀ x, Decision (P x)} (l : list A) :
  Forall P l → filter P l = l.
Proof.
  induction 1 as [|x l Hx _ IH]; [done|].
  by rewrite filter_cons_True, IH.
Qed.

(** Deleting a key that occurs once takes out exactly the row that holds it. *)
Lemma filter_remove_one {A} `{EqDecision A} (x : A) (l : list A) :
  NoDup l → x ∈ l →
  ∃ l1 l2, l = l1 ++ x :: l2 ∧ filter (λ y, y ≠ x) l = l1 ++ l2.
Proof.
  intros Hnd Hin. apply list_elem_of_split in Hin as (l1 & l2 & ->).
  exists l1, l2. split; [done|].
  apply NoDup_app in Hnd as (_ & Hl1 & Hl2). apply NoDup_cons in Hl2 as [Hx _].
  rewrite filter_app, filter_cons. rewrite decide_False by naive_solver.
  f_equal; apply filter_all, Forall_forall; intros y Hy ->.
  - eapply Hl1; [done|]. left.
  - done.
Qed.

Lemma count_delete_one s a e :
  I1 s → (a, e) ∈ tbl_participants s →
  count_participants (delete_participant s a e) a = count_participants s a - 1.
Proof.
  unfold I1. intros Hnd Hin.
  destruct (filter_remove_one (a, e) _ Hnd Hin) as (l1 & l2 & Hl & Hf).
  unfold count_participants, rows_of, delete_participant. simpl.
  rewrite Hf, Hl, !filter_app, filter_cons, !length_app. simpl.
  rewrite decide_True by done. simpl. lia.
Qed.

(** ** What the handlers do, case by case *)

Lemma signup_not_found s a e :
  select_max_participants s a = None →
  signup_for_activity s a e = (Raise NotFound, s).
Proof. unfold signup_for_activity. by intros ->. Qed.

Lemma signup_already s a e m :
  select_max_participants s a = Some m → (a, e) ∈ tbl_participants s →
  signup_for_activity s a e = (Raise AlreadyRegistered, s).
Proof.
  unfold signup_for_activity. intros -> Hin.
  apply is_registered_spec in Hin. by rewrite Hin.
Qed.

Lemma signup_full s a e m :
  select_max_participants s a = Some m → (a, e) ∉ tbl_participants s →
  m ≤ count_participants s a →
  signup_for_activity s a e = (Raise Full, s).
Proof.
  unfold signup_for_activity. intros -> Hin Hc.
  apply is_registered_false in Hin. rewrite Hin.
  destruct (Z.geb_spec (count_participants s a) m); [done|lia].
Qed.

Lemma signup_ok s a e m :
  select_max_participants s a = Some m → (a, e) ∉ tbl_participants s →
  count_participants s a < m →
  signup_for_activity s a e =
    (Ok (signup_message a e),
     Store (tbl_activities s) (tbl_participants s ++ [(a, e)])).
Proof.
  unfold signup_for_activity, insert_participant. intros -> Hin Hc.
  apply is_registered_false in Hin. rewrite Hin.
  destruct (Z.geb_spec (count_participants s a) m); [lia|done].
Qed.

(** Every run of [signup_for_activity] is one of the four above. *)
Lemma signup_cases s a e :
  signup_for_activity s a e = (Raise NotFound, s)
  ∨ signup_for_activity s a e = (Raise AlreadyRegistered, s)
  ∨ signup_for_activity s a e = (Raise Full, s)
  ∨ (∃ m, select_max_participants s a = Some m
          ∧ ((a, e) ∉ tbl_participants s)
          ∧ count_participants s a < m
          ∧ signup_for_activity s a e =
              (Ok (signup_message a e),
               Store (tbl_activities s) (tbl_participants s ++ [(a, e)]))).
Proof.
  destruct (select_max_participants s a) as [m|] eqn:Hm.
  - destruct (decide ((a, e) ∈ tbl_participants s)) as [Hin|Hin].
    + right; left. by eapply signup_already.
    + destruct (Z_lt_le_dec (count_participants s a) m) as [Hc|Hc].
      * do 3 right. exists m. eauto using signup_ok.
      * right; right; left. by eapply signup_full.
  - left. by apply signup_not_found.
Qed.

Lemma unregister_not_found s a e :
  (∀ r, r ∈ tbl_activities s → row_name r ≠ a) →
  unregister_from_activity s a e = (Raise NotFound, s).
Proof.
  intros Hno. unfold unregister_from_activity.
  destruct (activity_exists s a) eqn:Hex; [|done].
  apply activity_exists_spec in Hex as (r & Hin & Hr). by destruct (Hno r Hin).
Qed.

Lemma unregister_not_registered s a e r :
  r ∈ tbl_activities s → row_name r = a → (a, e) ∉ tbl_participants s →
  unregister_from_activity s a e = (Raise NotRegistered, s).
Proof.
  intros Hin Hr Hno. unfold unregister_from_activity.
  rewrite (proj2 (activity_exists_spec s a)) by eauto.
  apply is_registered_false in Hno. by rewrite Hno.
Qed.

Lemma unregister_ok s a e r :
  r ∈ tbl_activities s → row_name r = a → (a, e) ∈ tbl_participants s →
  unregister_from_activity s a e =
    (Ok (unregister_message a e), delete_participant s a e).
Proof.
  intros Hin Hr Hreg. unfold unregister_from_activity.
  rewrite (proj2 (activity_exists_spec s a)) by eauto.
  apply is_registered_spec in Hreg. by rewrite Hreg.
Qed.

Lemma unregister_cases s a e :
  (unregister_from_activity s a e).2 = s
  ∨ (unregister_from_activity s a e).2 = delete_participant s a e.
Proof.
  unfold unregister_from_activity.
  destruct (activity_exists s a); [|by left].
  destruct (is_registered s a e); [by right|by left].
Qed.

(** ** The invariant of the sequential service *)

Lemma inv_seeded : inv seeded.
Proof.
  split; [|split].
  - unfold pk_activities. by_compute.
  - unfold I1. by_compute.
  - unfold I2. apply Forall_forall. by_compute.
Qed.

Lemma inv_signup s a e : inv s → inv (signup_for_activity s a e).2.
Proof.
  intros (Hpk & Hi1 & Hi2).
  destruct (signup_cases s a e) as [-> | [-> | [-> | (m & Hm & Hin & Hc & ->)]]];
    try done.
  split; [done|]. split.
  - unfold I1. simpl. apply NoDup_app. split; [done|]. split.
    + intros x Hx ->%list_elem_of_singleton. done.
    + apply NoDup_singleton.
  - intros r Hr. simpl in *. rewrite count_insert.
    specialize (Hi2 r Hr). case_decide as Ha; [|lia].
    rewrite (select_max_unique s a r Hpk Hr) in Hm by done.
    injection Hm as <-. subst a. lia.
Qed.

Lemma inv_unregister s a e : inv s → inv (unregister_from_activity s a e).2.
Proof.
  intros (Hpk & Hi1 & Hi2).
  destruct (unregister_cases s a e) as [-> | ->]; [done|].
  split; [done|]. split.
  - unfold I1. simpl. by apply NoDup_filter.
  - intros r Hr. simpl in Hr. specialize (Hi2 r Hr).
    pose proof (count_delete_le s a e (row_name r)). lia.
Qed.

Lemma inv_exec s o : inv s → inv (exec s o).
Proof. destruct o; simpl; auto using inv_signup, inv_unregister. Qed.

Lemma inv_foldl ops s : inv s → inv (foldl exec s ops).
Proof.
  revert s. induction ops as [|o ops IH]; intros s Hs; simpl; [done|].
  apply IH, inv_exec, Hs.
Qed.

(** C1. Every state reached from the seeded store by a sequence of signUp
    and unregister operations satisfies I1 (no (activity_name, email) pair
    twice in the participants table) and I2 (no activity has more
    registrations than its max_participants). *)
Theorem reachable_states_satisfy_I1_I2 (ops : list op) :
  I1 (foldl exec seeded ops) ∧ I2 (foldl exec seeded ops).
Proof. apply (inv_foldl ops seeded inv_seeded). Qed.

(** ** signUp *)

Lemma mentions_middle before part after : mentions (before +:+ part +:+ after) part.
Proof. by exists before, after. Qed.

Lemma string_app_nil_r (t : string) : t +:+ "" = t.
Proof.
  induction t as [|c t IH]; [done|].
  change (String c (t +:+ "") = String c t). by rewrite IH.
Qed.

Lemma string_app_assoc (t u v : string) : (t +:+ u) +:+ v = t +:+ (u +:+ v).
Proof.
  induction t as [|c t IH]; [done|].
  change (String c ((t +:+ u) +:+ v) = String c (t +:+ (u +:+ v))). by rewrite IH.
Qed.

Lemma mentions_end before part : mentions (before +:+ part) part.
Proof. exists before, "". by rewrite string_app_nil_r. Qed.

Lemma signup_failure_keeps_store s a e x :
  (signup_for_activity s a e).1 = Raise x → (signup_for_activity s a e).2 = s.
Proof.
  destruct (signup_cases s a e) as [-> | [-> | [-> | (m & _ & _ & _ & ->)]]];
    done.
Qed.

(** C2. signUp checks its preconditions in a fixed order, and the store (so
    the registrant count) is the same after each failure: an unknown
    activity gives NotFound whatever the email; for a known activity a pair
    already registered gives AlreadyRegistered, whatever the count, full or
    not; then a count at or above max_participants gives Full; otherwise
    the signup succeeds. *)
Theorem signup_checks_in_order (s : store) (a e : string) :
  ((∀ r, r ∈ tbl_activities s → row_name r ≠ a) →
     signup_for_activity s a e = (Raise NotFound, s))
  ∧ (∀ m, select_max_participants s a = Some m →
       ((a, e) ∈ tbl_participants s →
          signup_for_activity s a e = (Raise AlreadyRegistered, s))
       ∧ ((a, e) ∉ tbl_participants s → m ≤ count_participants s a →
          signup_for_activity s a e = (Raise Full, s))
       ∧ ((a, e) ∉ tbl_participants s → count_participants s a < m →
          (signup_for_activity s a e).1 = Ok (signup_message a e)))
  ∧ (∀ x, (signup_for_activity s a e).1 = Raise x →
       (signup_for_activity s a e).2 = s
       ∧ ∀ a', count_participants (signup_for_activity s a e).2 a'
               = count_participants s a').
Proof.
  split; [|split].
  - intros Hno. by apply signup_not_found, select_max_None.
  - intros m Hm. split; [|split].
    + by apply signup_already with m.
    + by apply signup_full.
    + intros Hin Hc. by rewrite (signup_ok s a e m).
  - intros x Hx. apply signup_failure_keeps_store in Hx.
    split; [done|]. intros a'. by rewrite Hx.
Qed.

Lemma signup_checks_in_order_witness :
  signup_for_activity full_store "Sailing" "ann@mergington.edu" = (Raise NotFound, full_store)
  ∧ signup_for_activity full_store "Robotics" "ann@mergington.edu"
      = (Raise AlreadyRegistered, full_store)
  ∧ signup_for_activity full_store "Robotics" "bob@mergington.edu" = (Raise Full, full_store)
  ∧ (signup_for_activity seeded "Chess Club" "new@school.edu").1
      = Ok "Signed up new@school.edu for Chess Club".
Proof.
  split; [|split; [|split]].
  - apply (proj1 (signup_checks_in_order full_store "Sailing" "ann@mergington.edu")).
    apply Forall_forall. by_compute.
  - apply (proj1 (proj1 (proj2 (signup_checks_in_order full_store "Robotics"
                                  "ann@mergington.edu")) 1 eq_refl)).
    by_compute.
  - apply (proj1 (proj2 (proj1 (proj2 (signup_checks_in_order full_store "Robotics"
                                         "bob@mergington.edu")) 1 eq_refl))).
    + by_compute.
    + by_compute.
  - apply (proj2 (proj2 (proj1 (proj2 (signup_checks_in_order seeded "Chess Club"
                                         "new@school.edu")) 12 eq_refl))).
    + by_compute.
    + by_compute.
Defined.

(** C3. For an activity with capacity c whose count is below c, and an email
    not yet registered for it, signUp succeeds: the one row (activity,
    email) is added to the participants table and nothing else changes, the
    activity's count grows by one, and the confirmation names both the
    activity and the email. *)
Theorem signup_succeeds_below_capacity (s : store) (a e : string) (c : Z) :
  select_max_participants s a = Some c →
  count_participants s a < c →
  (a, e) ∉ tbl_participants s →
  (signup_for_activity s a e).1 = Ok (signup_message a e)
  ∧ tbl_participants (signup_for_activity s a e).2 = tbl_participants s ++ [(a, e)]
  ∧ tbl_activities (signup_for_activity s a e).2 = tbl_activities s
  ∧ count_participants (signup_for_activity s a e).2 a = count_participants s a + 1
  ∧ (∀ a', a' ≠ a →
       rows_of (signup_for_activity s a e).2 a' = rows_of s a')
  ∧ mentions (signup_message a e) a
  ∧ mentions (signup_message a e) e.
Proof.
  intros Hc Hlt Hin. rewrite (signup_ok s a e c) by done. simpl.
  repeat split.
  - rewrite count_insert. by rewrite decide_True.
  - intros a' Hne. unfold rows_of. simpl.
    rewrite filter_app, filter_cons_False, filter_nil by (simpl; congruence).
    apply app_nil_r.
  - unfold signup_message. rewrite <- !string_app_assoc. apply mentions_end.
  - unfold signup_message. apply mentions_middle.
Qed.

Lemma signup_succeeds_below_capacity_witness :
  (signup_for_activity seeded "Chess Club" "new@school.edu").1
    = Ok "Signed up new@school.edu for Chess Club"
  ∧ tbl_participants (signup_for_activity seeded "Chess Club" "new@school.edu").2
    = tbl_participants seeded ++ [("Chess Club", "new@school.edu")]
  ∧ count_participants (signup_for_activity seeded "Chess Club" "new@school.edu").2 "Chess Club"
    = 3.
Proof.
  destruct (signup_succeeds_below_capacity seeded "Chess Club" "new@school.edu" 12)
    as (Hmsg & Hrows & Hacts & Hcount & _).
  - reflexivity.
  - reflexivity.
  - by_compute.
  - split; [exact Hmsg|]. split; [exact Hrows|].
    rewrite Hcount. reflexivity.
Defined.

(** ** unregister *)

(** C4. unregister fails with NotFound for an unknown activity, whatever the
    email, and with NotRegistered for a known activity and a pair that is
    not registered, leaving the store as it was in both cases; for a
    registered pair it succeeds with a confirmation, and unregistering the
    same pair again fails with NotRegistered; the delete removes exactly
    the one row that holds the pair, so the count of the activity drops by
    one. *)
Theorem unregister_spec (s : store) (a e : string) :
  ((∀ r, r ∈ tbl_activities s → row_name r ≠ a) →
     unregister_from_activity s a e = (Raise NotFound, s))
  ∧ (∀ r, r ∈ tbl_activities s → row_name r = a →
       ((a, e) ∉ tbl_participants s →
          unregister_from_activity s a e = (Raise NotRegistered, s))
       ∧ ((a, e) ∈ tbl_participants s →
          (unregister_from_activity s a e).1 = Ok (unregister_message a e)
          ∧ tbl_activities (unregister_from_activity s a e).2 = tbl_activities s
          ∧ unregister_from_activity (unregister_from_activity s a e).2 a e
              = (Raise NotRegistered, (unregister_from_activity s a e).2)
          ∧ (I1 s →
               (∃ before after,
                   tbl_participants s = before ++ (a, e) :: after
                   ∧ tbl_participants (unregister_from_activity s a e).2 = before ++ after)
               ∧ count_participants (unregister_from_activity s a e).2 a
                 = count_participants s a - 1))).
Proof.
  split.
  - apply unregister_not_found.
  - intros r Hr Hname. split.
    + by apply unregister_not_registered with r.
    + intros Hin. rewrite (unregister_ok s a e r) by done. simpl.
      repeat split.
      * apply unregister_not_registered with r; [done..|].
        simpl. rewrite list_elem_of_filter. by intros [? _].
      * destruct (filter_remove_one (a, e) _ H Hin) as (l1 & l2 & ? & ?).
        by exists l1, l2.
      * by apply count_delete_one.
Qed.

Lemma unregister_spec_witness :
  unregister_from_activity seeded "Sailing" "michael@mergington.edu" = (Raise NotFound, seeded)
  ∧ unregister_from_activity seeded "Chess Club" "new@school.edu"
      = (Raise NotRegistered, seeded)
  ∧ (unregister_from_activity seeded "Chess Club" "michael@mergington.edu").1
      = Ok "Unregistered michael@mergington.edu from Chess Club"
  ∧ count_participants
      (unregister_from_activity seeded "Chess Club" "michael@mergington.edu").2 "Chess Club"
    = 1.
Proof.
  pose (chess := ("Chess Club", "Learn strategies and compete in chess tournaments",
                  "Fridays, 3:30 PM - 5:00 PM", 12) : activity_row).
  assert (chess ∈ tbl_activities seeded) as Hchess by by_compute.
  split; [|split; [|split]].
  - apply (proj1 (unregister_spec seeded "Sailing" "michael@mergington.edu")).
    apply Forall_forall. by_compute.
  - apply (proj1 (proj2 (unregister_spec seeded "Chess Club" "new@school.edu")
                    chess Hchess eq_refl)).
    by_compute.
  - apply (proj2 (proj2 (unregister_spec seeded "Chess Club" "michael@mergington.edu")
                    chess Hchess eq_refl)).
    by_compute.
  - assert (("Chess Club", "michael@mergington.edu") ∈ tbl_participants seeded) as Hin
      by by_compute.
    assert (I1 seeded) as Hi1 by (unfold I1; by_compute).
    destruct (proj2 (proj2 (unregister_spec seeded "Chess Club" "michael@mergington.edu")
                       chess Hchess eq_refl) Hin) as (_ & _ & _ & Hone).
    destruct (Hone Hi1) as [_ ->]. reflexivity.
Defined.

(** ** The activities table is read only *)

(** C7. None of the three operations updates or deletes a row of the
    activities table: after listActivities, signUp or unregister, on any
    input and in any state, the table is what it was. *)
Theorem activities_table_unchanged (s : store) :
  tbl_activities (get_activities s).2 = tbl_activities s
  ∧ (∀ a e, tbl_activities (signup_for_activity s a e).2 = tbl_activities s)
  ∧ (∀ a e, tbl_activities (unregister_from_activity s a e).2 = tbl_activities s).
Proof.
  split; [done|]. split; intros a e.
  - by destruct (signup_cases s a e) as [-> | [-> | [-> | (m & _ & _ & _ & ->)]]].
  - by destruct (unregister_cases s a e) as [-> | ->].
Qed.

(** ** listActivities *)

Lemma add_entry_insert s acts r :
  add_entry s acts r = <[row_name r := entry_of s r]> acts.
Proof. by destruct r as [[[n d] sc] m]. Qed.

Lemma entry_of_participants s r :
  participants (entry_of s r) = select_emails s (row_name r).
Proof. by destruct r as [[[n d] sc] m]. Qed.

Lemma entry_of_row s r :
  r = (row_name r, description (entry_of s r), schedule (entry_of s r),
       max_participants (entry_of s r)).
Proof. by destruct r as [[[n d] sc] m]. Qed.

Section dictionary.
Variable s : store.

Lemma dict_snoc rows r :
  foldl (add_entry s) ∅ (rows ++ [r])
  = <[row_name r := entry_of s r]> (foldl (add_entry s) ∅ rows).
Proof. by rewrite foldl_app, <- add_entry_insert. Qed.

Lemma dict_dom rows :
  dom (foldl (add_entry s) ∅ rows) =@{gset string} list_to_set (row_name <$> rows).
Proof.
  induction rows as [|r rows IH] using rev_ind; [simpl; by rewrite dom_empty_L|].
  rewrite dict_snoc, dom_insert_L, IH, fmap_app, list_to_set_app_L. simpl.
  by rewrite (right_id_L ∅ (∪)), (comm_L (∪)).
Qed.

Lemma dict_lookup_Some rows a d :
  foldl (add_entry s) ∅ rows !! a = Some d →
  ∃ r, r ∈ rows ∧ row_name r = a ∧ d = entry_of s r.
Proof.
  induction rows as [|r rows IH] using rev_ind; [done|].
  rewrite dict_snoc. destruct (decide (row_name r = a)) as [Heq|Hne].
  - rewrite <- Heq, lookup_insert_eq. intros [= <-].
    exists r. by rewrite elem_of_app, list_elem_of_singleton; auto.
  - rewrite lookup_insert_ne by done. intros (r' & Hin & Hr')%IH.
    exists r'. rewrite elem_of_app. auto.
Qed.

Lemma dict_lookup_row rows r :
  NoDup (row_name <$> rows) → r ∈ rows →
  foldl (add_entry s) ∅ rows !! row_name r = Some (entry_of s r).
Proof.
  induction rows as [|r' rows IH] using rev_ind; [by intros _ ?%elem_of_nil|].
  rewrite fmap_app, dict_snoc. simpl.
  intros (Hnd & Hfresh & _)%NoDup_app [Hin | ->%list_elem_of_singleton]%elem_of_app.
  - rewrite lookup_insert_ne; [by apply IH|].
    intros Heq. apply (Hfresh (row_name r)).
    + by apply list_elem_of_fmap_2.
    + rewrite Heq. left.
  - apply lookup_insert_eq.
Qed.
End dictionary.

Lemma select_emails_perm s a : select_emails s a ≡ₚ emails_in_insertion_order s a.
Proof. apply merge_sort_Permutation. Qed.

Lemma select_emails_sorted s a : Sorted String.le (select_emails s a).
Proof. apply (Sorted_merge_sort String.le). Qed.

(** C5, as the code has it.  listActivities never fails and leaves the
    store as it was; the keys of the mapping it returns are the names in
    the activities table; an entry holds the description, schedule and
    max_participants of a row of that name (of the row of that name, names
    being a primary key), and as participants the emails registered for the
    activity, each as often as stored, in ascending byte order of the email
    and not in insertion order; a store without activities gives the empty
    mapping. *)
Theorem get_activities_snapshot (s : store) :
  get_activities s = (Ok (build_activity_dict s), s)
  ∧ dom (build_activity_dict s) =@{gset string} list_to_set (row_name <$> tbl_activities s)
  ∧ (∀ a d, build_activity_dict s !! a = Some d →
       (a, description d, schedule d, max_participants d) ∈ tbl_activities s
       ∧ participants d ≡ₚ emails_in_insertion_order s a
       ∧ Sorted String.le (participants d))
  ∧ (pk_activities s → ∀ r, r ∈ tbl_activities s →
       build_activity_dict s !! row_name r = Some (entry_of s r))
  ∧ (tbl_activities s = [] → build_activity_dict s = ∅).
Proof.
  split; [done|]. split; [apply dict_dom|]. split; [|split].
  - intros a d (r & Hin & <- & ->)%dict_lookup_Some.
    rewrite <- entry_of_row, entry_of_participants.
    auto using select_emails_perm, select_emails_sorted.
  - intros Hpk r Hr. by apply dict_lookup_row.
  - unfold build_activity_dict. by intros ->.
Qed.

Lemma get_activities_snapshot_witness :
  build_activity_dict seeded !! "Chess Club"
  = Some (ActivityData "Learn strategies and compete in chess tournaments"
            "Fridays, 3:30 PM - 5:00 PM" 12
            ["daniel@mergington.edu"; "michael@mergington.edu"])
  ∧ build_activity_dict empty_store = ∅.
Proof.
  destruct (get_activities_snapshot seeded) as (_ & _ & _ & Hrow & _).
  destruct (get_activities_snapshot empty_store) as (_ & _ & _ & _ & Hempty).
  split.
  - apply (Hrow (proj1 inv_seeded)
             ("Chess Club", "Learn strategies and compete in chess tournaments",
              "Fridays, 3:30 PM - 5:00 PM", 12)).
    by_compute.
  - apply Hempty. reflexivity.
Defined.

(** C5, as the claim has it, fails: the seeded roster of the Chess Club was
    inserted as michael, daniel and is listed as daniel, michael. *)
Lemma listing_not_in_insertion_order :
  emails_in_insertion_order seeded "Chess Club"
    = ["michael@mergington.edu"; "daniel@mergington.edu"]
  ∧ participants <$> build_activity_dict seeded !! "Chess Club"
    = Some ["daniel@mergington.edu"; "michael@mergington.edu"]
  ∧ ¬ (∀ s a d, build_activity_dict s !! a = Some d →
         participants d = emails_in_insertion_order s a).
Proof.
  split; [by vm_compute|]. split; [by vm_compute|].
  intros Hclaim.
  specialize (Hclaim seeded "Chess Club"
    (ActivityData "Learn strategies and compete in chess tournaments"
       "Fridays, 3:30 PM - 5:00 PM" 12
       ["daniel@mergington.edu"; "michael@mergington.edu"])).
  assert (["daniel@mergington.edu"; "michael@mergington.edu"]
          = ["michael@mergington.edu"; "daniel@mergington.edu"]) as Habs.
  { apply Hclaim. by vm_compute. }
  discriminate Habs.
Qed.

(** ** No validation of the email *)

(** C10. signUp does not look at the shape of the email: for every string,
    the empty one included, a signup for a known activity below capacity
    with a pair not yet registered succeeds, stores that very string,
    shows it in the next listing of the activity, and raises the count of
    the activity by one. *)
Theorem signup_accepts_any_email (s : store) (a e : string) (c : Z) :
  select_max_participants s a = Some c →
  (a, e) ∉ tbl_participants s →
  count_participants s a < c →
  (signup_for_activity s a e).1 = Ok (signup_message a e)
  ∧ (a, e) ∈ tbl_participants (signup_for_activity s a e).2
  ∧ (∃ d, build_activity_dict (signup_for_activity s a e).2 !! a = Some d
          ∧ e ∈ participants d)
  ∧ count_participants (signup_for_activity s a e).2 a = count_participants s a + 1.
Proof.
  intros Hc Hin Hlt. rewrite (signup_ok s a e c) by done. simpl.
  set (s' := Store (tbl_activities s) (tbl_participants s ++ [(a, e)])).
  assert ((a, e) ∈ tbl_participants s') as Hnew.
  { simpl. rewrite elem_of_app, list_elem_of_singleton. by right. }
  split; [done|]. split; [done|]. split.
  - apply select_max_Some in Hc as (r & Hr & Hname & _).
    assert (is_Some (build_activity_dict s' !! a)) as [d Hd].
    { apply elem_of_dom. unfold build_activity_dict. rewrite dict_dom.
      apply elem_of_list_to_set, list_elem_of_fmap. by exists r. }
    exists d. split; [done|].
    apply dict_lookup_Some in Hd as (r' & _ & Hname' & ->).
    rewrite entry_of_participants, Hname', select_emails_perm.
    unfold emails_in_insertion_order, rows_of.
    apply list_elem_of_fmap. exists (a, e). split; [done|].
    by apply list_elem_of_filter.
  - unfold s'. rewrite count_insert. by rewrite decide_True.
Qed.

Lemma signup_accepts_any_email_witness :
  (signup_for_activity seeded "Chess Club" "").1 = Ok "Signed up  for Chess Club"
  ∧ ("Chess Club", "") ∈ tbl_participants (signup_for_activity seeded "Chess Club" "").2
  ∧ (∃ d, build_activity_dict (signup_for_activity seeded "Chess Club" "").2 !! "Chess Club"
            = Some d ∧ "" ∈ participants d)
  ∧ count_participants (signup_for_activity seeded "Chess Club" "").2 "Chess Club" = 3.
Proof.
  destruct (signup_accepts_any_email seeded "Chess Club" "" 12)
    as (Hmsg & Hrow & Hlist & Hcount).
  - reflexivity.
  - by_compute.
  - reflexivity.
  - split; [exact Hmsg|]. split; [exact Hrow|]. split; [exact Hlist|].
    rewrite Hcount. reflexivity.
Defined.

(** ** Store initialization *)

Lemma insert_participant_Ok s n p s' :
  insert_participant s n p = Ok s' →
  ((n, p) ∉ tbl_participants s)
  ∧ s' = Store (tbl_activities s) (tbl_participants s ++ [(n, p)]).
Proof.
  unfold insert_participant. destruct (is_registered s n p) eqn:Hreg; [done|].
  intros [= <-]. by apply is_registered_false in Hreg.
Qed.

Lemma seed_participants_Ok s n ps s' :
  seed_participants s n ps = Ok s' →
  tbl_activities s' = tbl_activities s
  ∧ tbl_participants s' = tbl_participants s ++ ((λ p, (n, p)) <$> ps)
  ∧ ∀ p, p ∈ ps → (n, p) ∉ tbl_participants s.
Proof.
  revert s. induction ps as [|p ps IH]; intros s; simpl.
  - intros [= <-]. rewrite app_nil_r. split; [done|]. split; [done|].
    by intros p ?%elem_of_nil.
  - destruct (insert_participant s n p) as [s1|] eqn:Hins; [|done]. simpl.
    apply insert_participant_Ok in Hins as [Hfresh ->].
    intros (Ha & Hp & Hnew)%IH. simpl in *.
    split; [done|]. split; [by rewrite Hp, <- app_assoc|].
    intros q [-> | Hq]%elem_of_cons; [done|].
    intros Hin. apply (Hnew q Hq). rewrite elem_of_app. by left.
Qed.

Lemma seed_activities_Ok s items s' :
  seed_activities s items = Ok s' →
  tbl_activities s' = tbl_activities s ++ activity_rows_of items
  ∧ tbl_participants s' = tbl_participants s ++ participant_rows_of items
  ∧ ∀ r, r ∈ participant_rows_of items → r ∉ tbl_participants s.
Proof.
  revert s. induction items as [|[n data] items IH]; intros s; simpl.
  - intros [= <-]. rewrite !app_nil_r. split; [done|]. split; [done|].
    by intros p ?%elem_of_nil.
  - unfold insert_activity.
    destruct (activity_exists s _); [done|]. simpl.
    destruct (seed_participants _ n (participants data)) as [s2|] eqn:Hps; [|done].
    simpl. apply seed_participants_Ok in Hps as (Ha2 & Hp2 & Hnew2). simpl in *.
    intros (Ha & Hp & Hnew)%IH.
    split; [by rewrite Ha, Ha2, <- app_assoc|].
    split; [by rewrite Hp, Hp2, <- app_assoc|].
    intros r [Hr | Hr]%elem_of_app.
    + apply list_elem_of_fmap in Hr as (p & -> & Hp'). by apply Hnew2.
    + intros Hin. apply (Hnew r Hr). rewrite Hp2, elem_of_app. by left.
Qed.

Lemma seed_participants_Raise s n ps e :
  seed_participants s n ps = Raise e → e = IntegrityError.
Proof.
  revert s. induction ps as [|p ps IH]; intros s; simpl; [done|].
  unfold insert_participant. destruct (is_registered s n p); simpl.
  - by intros [= <-].
  - apply IH.
Qed.

Lemma seed_activities_Raise s items e :
  seed_activities s items = Raise e → e = IntegrityError.
Proof.
  revert s. induction items as [|[n data] items IH]; intros s; simpl; [done|].
  unfold insert_activity. destruct (activity_exists s _); simpl.
  - by intros [= <-].
  - destruct (seed_participants _ n (participants data)) as [s2|] eqn:Hps; simpl.
    + apply IH.
    + intros [= <-]. by eapply seed_participants_Raise.
Qed.

Lemma seed_participants_fresh s n ps :
  NoDup ps → (∀ p, p ∈ ps → (n, p) ∉ tbl_participants s) →
  seed_participants s n ps
  = Ok (Store (tbl_activities s) (tbl_participants s ++ ((λ p, (n, p)) <$> ps))).
Proof.
  revert s. induction ps as [|p ps IH]; intros s Hnd Hfresh; simpl.
  - rewrite app_nil_r. by destruct s.
  - apply NoDup_cons in Hnd as [Hp Hnd].
    unfold insert_participant.
    rewrite (proj2 (is_registered_false s n p)) by (apply Hfresh; left).
    simpl. rewrite IH; simpl.
    + by rewrite <- app_assoc.
    + done.
    + intros q Hq [Hin | [= ->]%list_elem_of_singleton]%elem_of_app; [|done].
      by apply (Hfresh q); [right|].
Qed.

Lemma seed_activities_fresh s items :
  NoDup items.*1 →
  (∀ item, item ∈ items → NoDup (participants item.2)) →
  (∀ n, n ∈ items.*1 → activity_exists s n = false) →
  (∀ r, r ∈ participant_rows_of items → r ∉ tbl_participants s) →
  seed_activities s items
  = Ok (Store (tbl_activities s ++ activity_rows_of items)
              (tbl_participants s ++ participant_rows_of items)).
Proof.
  revert s. induction items as [|[n data] items IH]; intros s Hnd Hps Hact Hfresh; simpl.
  - rewrite !app_nil_r. by destruct s.
  - apply NoDup_cons in Hnd as [Hn Hnd]. unfold insert_activity. simpl.
    rewrite Hact by left. simpl.
    rewrite seed_participants_fresh; simpl.
    + rewrite IH; simpl.
      * by rewrite <- !app_assoc.
      * done.
      * intros item Hitem. apply Hps. by right.
      * intros m Hm. apply not_true_is_false. rewrite activity_exists_spec. simpl.
        intros (r & [Hr | ->%list_elem_of_singleton]%elem_of_app & Hname).
        -- assert (activity_exists s m = true) as Hex
             by (apply activity_exists_spec; eauto).
           rewrite Hact in Hex; [done|by right].
        -- simpl in Hname. by subst.
      * intros r Hr [Hin | Hin]%elem_of_app.
        -- apply (Hfresh r); [|done]. simpl. rewrite elem_of_app. by right.
        -- apply list_elem_of_fmap in Hin as (p & -> & Hp).
           apply list_elem_of_bind in Hr as ([m d] & Hr & Hitem).
           apply list_elem_of_fmap in Hr as (q & [= <- <-] & _).
           apply Hn. apply list_elem_of_fmap. by exists (n, d).
    + apply (Hps (n, data)). left.
    + intros p Hp. apply Hfresh. simpl. rewrite elem_of_app. left.
      apply list_elem_of_fmap. by exists p.
Qed.

Lemma init_db_nonempty s :
  tbl_activities s ≠ [] → init_db s = (Ok (), s).
Proof.
  unfold init_db, count_activities. intros Hne.
  destruct (tbl_activities s); [done|]. done.
Qed.

Lemma init_db_empty s :
  tbl_activities s = [] →
  init_db s = match seed_activities s INITIAL_ACTIVITIES with
              | Ok s' => (Ok (), s')
              | Raise e => (Raise e, s)
              end.
Proof. unfold init_db, count_activities. by intros ->. Qed.

Lemma init_db_seeds s :
  tbl_activities s = [] →
  (∀ r, r ∈ seed_participant_rows → r ∉ tbl_participants s) →
  init_db s = (Ok (), Store seed_activity_rows (tbl_participants s ++ seed_participant_rows)).
Proof.
  intros Hempty Hfresh. rewrite init_db_empty by done.
  rewrite seed_activities_fresh.
  - by rewrite Hempty.
  - by_compute.
  - apply Forall_forall. by_compute.
  - intros n _. apply not_true_is_false. rewrite activity_exists_spec, Hempty.
    by intros (r & ?%elem_of_nil & _).
  - exact Hfresh.
Qed.

Lemma init_db_collision s r :
  tbl_activities s = [] → r ∈ seed_participant_rows → r ∈ tbl_participants s →
  init_db s = (Raise IntegrityError, s).
Proof.
  intros Hempty Hseed Hin. rewrite init_db_empty by done.
  destruct (seed_activities s INITIAL_ACTIVITIES) as [s'|e] eqn:Hrun.
  - apply seed_activities_Ok in Hrun as (_ & _ & Hfresh).
    destruct (Hfresh r Hseed Hin).
  - by apply seed_activities_Raise in Hrun as ->.
Qed.

Lemma init_db_idempotent s : (init_db (init_db s).2).2 = (init_db s).2.
Proof.
  destruct (decide (tbl_activities s = [])) as [Hempty|Hne].
  - rewrite (init_db_empty s) by done.
    destruct (seed_activities s INITIAL_ACTIVITIES) as [s'|e] eqn:Hrun; simpl.
    + rewrite init_db_nonempty; [done|].
      apply seed_activities_Ok in Hrun as (-> & _). by rewrite Hempty.
    + by rewrite (init_db_empty s), Hrun.
  - rewrite (init_db_nonempty s) by done. simpl. by rewrite init_db_nonempty.
Qed.

(** On a database without rows the seeding writes the nine activities and,
    for each of them, its roster of two emails. *)
Lemma init_db_empty_store :
  init_db empty_store = (Ok (), Store seed_activity_rows seed_participant_rows)
  ∧ Forall (λ item, length (participants item.2) = 2%nat) INITIAL_ACTIVITIES.
Proof. split; [by vm_compute|by_compute]. Qed.

(** C6 at the store where it fails: the activities table has no row, a
    registration that the seed also holds is still in the participants
    table, and [init_db] raises at the insert of that registration; no
    activity is seeded. *)
Theorem init_db_raises_on_cleared_store :
  tbl_activities cleared_store = []
  ∧ init_db cleared_store = (Raise IntegrityError, cleared_store)
  ∧ tbl_activities (init_db cleared_store).2 = [].
Proof. by vm_compute. Qed.

(** * Further properties of the registration service *)

(** ** What the handlers raise *)

Lemma unregister_results s a e :
  unregister_from_activity s a e = (Raise NotFound, s)
  ∨ unregister_from_activity s a e = (Raise NotRegistered, s)
  ∨ ((a, e) ∈ tbl_participants s
     ∧ (∃ r, r ∈ tbl_activities s ∧ row_name r = a)
     ∧ unregister_from_activity s a e
       = (Ok (unregister_message a e), delete_participant s a e)).
Proof.
  unfold unregister_from_activity.
  destruct (activity_exists s a) eqn:Hex; [|by left]. simpl.
  destruct (is_registered s a e) eqn:Hreg; simpl; [|by right; left].
  right; right. split; [by apply is_registered_spec|].
  split; [by apply activity_exists_spec|done].
Qed.

(** X1. A handler raises nothing but its own HTTP errors: signUp raises
    only NotFound (404), AlreadyRegistered (400) or Full (400), unregister
    only NotFound (404) or NotRegistered (400); the duplicate check of
    signUp keeps the insert from ever breaking the primary key, and 404 is
    raised exactly when no activity has the name. *)
Theorem handlers_raise_only_http_errors (s : store) (o : op) (x : exn) :
  answer s o = Raise x →
  x ≠ IntegrityError
  ∧ (http_status x = 404 ∨ http_status x = 400)
  ∧ (http_status x = 404 ↔ ∀ r, r ∈ tbl_activities s → row_name r ≠ op_activity o).
Proof.
  destruct o as [a e|a e]; simpl.
  - destruct (select_max_participants s a) as [m|] eqn:Hm.
    + assert (¬ ∀ r, r ∈ tbl_activities s → row_name r ≠ a) as Hex.
      { intros Hno. apply select_max_None in Hno. congruence. }
      destruct (decide ((a, e) ∈ tbl_participants s)) as [Hin|Hin].
      * rewrite (signup_already s a e m) by done. intros [= <-].
        split; [done|]. split; [by right|]. split; [done|]. intros ?. by destruct Hex.
      * destruct (Z_lt_le_dec (count_participants s a) m) as [Hc|Hc].
        -- by rewrite (signup_ok s a e m).
        -- rewrite (signup_full s a e m) by done. intros [= <-].
           split; [done|]. split; [by right|]. split; [done|]. intros ?. by destruct Hex.
    + rewrite (signup_not_found s a e) by done. intros [= <-].
      split; [done|]. split; [by left|]. split; [|done].
      intros _. by apply select_max_None.
  - destruct (unregister_results s a e) as [H | [H | (Hin & (r & Hr & Hname) & H)]];
      rewrite H; simpl; [| |done]; intros [= <-].
    + split; [done|]. split; [by left|]. split; [|done]. intros _.
      apply select_max_None. unfold unregister_from_activity in H.
      rewrite activity_exists_select in H.
      destruct (select_max_participants s a) as [m|] eqn:Hm; [|done].
      rewrite bool_decide_true in H by eauto. simpl in H.
      destruct (is_registered s a e); simpl in H; by inversion H.
    + split; [done|]. split; [by right|]. split; [done|]. intros Hno.
      unfold unregister_from_activity in H.
      destruct (activity_exists s a) eqn:Hex; simpl in H; [|by inversion H].
      apply activity_exists_spec in Hex as (r & Hr & Hname). by destruct (Hno r Hr).
Qed.

Lemma handlers_raise_only_http_errors_witness :
  http_status Full = 400
  ∧ (http_status NotFound = 404 ↔
     ∀ r, r ∈ tbl_activities full_store → row_name r ≠ "Sailing").
Proof.
  destruct (handlers_raise_only_http_errors full_store
              (SignUp "Robotics" "bob@mergington.edu") Full) as (_ & _ & _).
  { reflexivity. }
  destruct (handlers_raise_only_http_errors full_store
              (Unregister "Sailing" "bob@mergington.edu") NotFound) as (_ & _ & H404).
  { reflexivity. }
  split; [reflexivity|exact H404].
Defined.

(** ** Round trips *)

Lemma filter_out_last {A} `{EqDecision A} (x : A) (l : list A) :
  x ∉ l → filter (λ y, y ≠ x) (l ++ [x]) = l.
Proof.
  intros Hx. rewrite filter_app, filter_cons_False, filter_nil, app_nil_r by naive_solver.
  apply filter_all, Forall_forall. by intros y Hy ->.
Qed.

(** X2. A signup that succeeds is undone by the unregister of the same
    pair: the unregister succeeds and the store is again the one before the
    signup, row for row. *)
Theorem signup_then_unregister_restores (s : store) (a e message : string) :
  (signup_for_activity s a e).1 = Ok message →
  unregister_from_activity (signup_for_activity s a e).2 a e
  = (Ok (unregister_message a e), s).
Proof.
  destruct (signup_cases s a e) as [-> | [-> | [-> | (m & Hm & Hin & Hc & ->)]]];
    try done.
  intros _. simpl.
  apply select_max_Some in Hm as (r & Hr & Hname & _).
  rewrite (unregister_ok _ a e r); [|done..|].
  - unfold delete_participant. simpl. rewrite filter_out_last by done. by destruct s.
  - simpl. rewrite elem_of_app, list_elem_of_singleton. by right.
Qed.

Lemma signup_then_unregister_restores_witness :
  unregister_from_activity (signup_for_activity seeded "Chess Club" "new@school.edu").2
    "Chess Club" "new@school.edu"
  = (Ok "Unregistered new@school.edu from Chess Club", seeded).
Proof.
  apply (signup_then_unregister_restores seeded "Chess Club" "new@school.edu"
           "Signed up new@school.edu for Chess Club").
  reflexivity.
Defined.

(** ** The listing and the order of the rows *)

Lemma activities_rows_kept s o : tbl_activities (exec s o) = tbl_activities s.
Proof.
  destruct o as [a e|a e]; simpl.
  - by destruct (signup_cases s a e) as [-> | [-> | [-> | (m & _ & _ & _ & ->)]]].
  - by destruct (unregister_cases s a e) as [-> | ->].
Qed.

Lemma select_emails_permutation s s' a :
  tbl_participants s ≡ₚ tbl_participants s' → select_emails s a = select_emails s' a.
Proof.
  intros Hperm. apply (Sorted_unique String.le).
  - apply select_emails_sorted.
  - apply select_emails_sorted.
  - rewrite !select_emails_perm. unfold emails_in_insertion_order, rows_of.
    by rewrite Hperm.
Qed.

(** The entry of one name depends on the store through the rows of the
    activities table and the emails selected for that name only. *)
Lemma dict_lookup_ext s s' rows a :
  select_emails s a = select_emails s' a →
  foldl (add_entry s) ∅ rows !! a = foldl (add_entry s') ∅ rows !! a.
Proof.
  intros Hsel. induction rows as [|r rows IH] using rev_ind; [done|].
  rewrite !dict_snoc. destruct (decide (row_name r = a)) as [<-|Hne].
  - rewrite !lookup_insert_eq. f_equal.
    destruct r as [[[n d] sc] m]. unfold row_name in Hsel. simpl in *.
    by rewrite Hsel.
  - by rewrite !lookup_insert_ne.
Qed.

Lemma listing_permutation s s' :
  tbl_activities s = tbl_activities s' →
  tbl_participants s ≡ₚ tbl_participants s' →
  build_activity_dict s = build_activity_dict s'.
Proof.
  intros Hacts Hperm. apply map_eq. intros a. unfold build_activity_dict.
  rewrite <- Hacts. apply dict_lookup_ext. by apply select_emails_permutation.
Qed.

(** X3. The listing does not depend on the order in which the
    registrations were inserted: two stores with the same activities table
    whose participants tables hold the same rows, in any order, have the
    same listing. *)
Theorem listing_ignores_insertion_order (s s' : store) :
  tbl_activities s = tbl_activities s' →
  tbl_participants s ≡ₚ tbl_participants s' →
  build_activity_dict s = build_activity_dict s'.
Proof. apply listing_permutation. Qed.

Lemma listing_ignores_insertion_order_witness :
  build_activity_dict
    (Store (tbl_activities full_store)
           [("Robotics", "zoe@mergington.edu"); ("Robotics", "ann@mergington.edu")])
  = build_activity_dict
      (Store (tbl_activities full_store)
             [("Robotics", "ann@mergington.edu"); ("Robotics", "zoe@mergington.edu")]).
Proof.
  apply listing_ignores_insertion_order.
  - reflexivity.
  - simpl. apply Permutation_swap.
Defined.

(** X4. An operation on one activity leaves the entry of every other
    activity in the listing as it was, whether the operation succeeds or
    raises. *)
Theorem listing_of_other_activities_unchanged (s : store) (o : op) (a' : string) :
  a' ≠ op_activity o →
  build_activity_dict (exec s o) !! a' = build_activity_dict s !! a'.
Proof.
  intros Hne.
  assert (tbl_activities (exec s o) = tbl_activities s) as Hacts.
  { apply activities_rows_kept. }
  unfold build_activity_dict. rewrite Hacts. apply dict_lookup_ext.
  unfold select_emails. f_equal. f_equal.
  destruct o as [a e|a e]; simpl in *.
  - destruct (signup_cases s a e) as [-> | [-> | [-> | (m & _ & _ & _ & ->)]]];
      try done.
    unfold rows_of. simpl.
    rewrite filter_app, filter_cons_False, filter_nil by (simpl; congruence).
    apply app_nil_r.
  - destruct (unregister_cases s a e) as [-> | ->]; [done|].
    by apply rows_of_delete_other.
Qed.

Lemma listing_of_other_activities_unchanged_witness :
  build_activity_dict (exec seeded (SignUp "Chess Club" "new@school.edu")) !! "Art Club"
  = build_activity_dict seeded !! "Art Club".
Proof.
  apply (listing_of_other_activities_unchanged seeded
           (SignUp "Chess Club" "new@school.edu") "Art Club").
  simpl. discriminate.
Defined.

(** ** Rosters in the listing *)

Lemma listed_roster s a d :
  build_activity_dict s !! a = Some d →
  participants d = select_emails s a
  ∧ ∃ r, r ∈ tbl_activities s ∧ row_name r = a ∧ max_participants d = row_max r.
Proof.
  intros (r & Hr & <- & ->)%dict_lookup_Some.
  split; [apply entry_of_participants|].
  exists r. by destruct r as [[[n dd] sc] m].
Qed.

Lemma emails_NoDup s a : I1 s → NoDup (emails_in_insertion_order s a).
Proof.
  unfold I1, emails_in_insertion_order, rows_of. intros Hnd.
  apply NoDup_fmap_2_strong; [|by apply NoDup_filter].
  intros [b x] [c y] [Hb _]%list_elem_of_filter [Hc _]%list_elem_of_filter Heq.
  simpl in *. congruence.
Qed.

(** X5. In every state reached from the seeded store, a listed activity
    shows no email twice and at most max_participants emails, and the
    length of its roster is the count the capacity check of signUp uses. *)
Theorem listed_rosters_within_capacity (ops : list op) (a : string) (d : activity_data) :
  build_activity_dict (foldl exec seeded ops) !! a = Some d →
  NoDup (participants d)
  ∧ Z.of_nat (length (participants d)) = count_participants (foldl exec seeded ops) a
  ∧ Z.of_nat (length (participants d)) ≤ max_participants d.
Proof.
  set (s := foldl exec seeded ops).
  destruct (inv_foldl ops seeded inv_seeded) as (_ & Hi1 & Hi2). fold s in Hi1, Hi2.
  intros (Hroster & r & Hr & Hname & Hmax)%listed_roster.
  assert (Z.of_nat (length (participants d)) = count_participants s a) as Hlen.
  { rewrite Hroster, select_emails_perm. unfold emails_in_insertion_order.
    by rewrite length_fmap. }
  split; [|split; [done|]].
  - rewrite Hroster, select_emails_perm. by apply emails_NoDup.
  - rewrite Hlen, Hmax, <- Hname. by apply Hi2.
Qed.

Lemma listed_rosters_within_capacity_witness :
  ∃ d, build_activity_dict (foldl exec seeded [SignUp "Math Club" "new@school.edu"])
         !! "Math Club" = Some d
       ∧ Z.of_nat (length (participants d)) = 3
       ∧ Z.of_nat (length (participants d)) ≤ max_participants d.
Proof.
  exists (ActivityData "Solve challenging problems and participate in math competitions"
            "Tuesdays, 3:30 PM - 4:30 PM" 10
            ["benjamin@mergington.edu"; "james@mergington.edu"; "new@school.edu"]).
  assert (build_activity_dict (foldl exec seeded [SignUp "Math Club" "new@school.edu"])
            !! "Math Club"
          = Some (ActivityData "Solve challenging problems and participate in math competitions"
                    "Tuesdays, 3:30 PM - 4:30 PM" 10
                    ["benjamin@mergington.edu"; "james@mergington.edu"; "new@school.edu"]))
    as Hd by (by vm_compute).
  destruct (listed_rosters_within_capacity _ _ _ Hd) as (_ & _ & Hle).
  split; [exact Hd|]. split; [reflexivity|exact Hle].
Defined.

(** X6. After an unregister that succeeds, the email is gone from the
    roster the listing shows for the activity, and every other email of
    that roster is still there. *)
Theorem unregistered_email_leaves_listing (s : store) (a e message : string) :
  (unregister_from_activity s a e).1 = Ok message →
  ∃ d d', build_activity_dict s !! a = Some d
          ∧ build_activity_dict (unregister_from_activity s a e).2 !! a = Some d'
          ∧ e ∈ participants d
          ∧ (e ∉ participants d')
          ∧ ∀ e', e' ≠ e → (e' ∈ participants d' ↔ e' ∈ participants d).
Proof.
  destruct (unregister_results s a e) as [H | [H | (Hin & (r & Hr & Hname) & H)]];
    rewrite H; simpl; [done..|]. intros _.
  assert (∀ s', tbl_activities s' = tbl_activities s →
                ∃ d, build_activity_dict s' !! a = Some d) as Hlisted.
  { intros s' Hacts. apply (elem_of_dom (build_activity_dict s') a).
    unfold build_activity_dict. rewrite dict_dom, Hacts.
    apply elem_of_list_to_set, list_elem_of_fmap. by exists r. }
  destruct (Hlisted s eq_refl) as [d Hd].
  destruct (Hlisted (delete_participant s a e) eq_refl) as [d' Hd'].
  exists d, d'. split; [done|]. split; [done|].
  apply listed_roster in Hd as [-> _]. apply listed_roster in Hd' as [-> _].
  assert (∀ x, x ∈ select_emails (delete_participant s a e) a
               ↔ (a, x) ∈ tbl_participants s ∧ x ≠ e) as Hafter.
  { intros x. rewrite select_emails_perm. unfold emails_in_insertion_order, rows_of.
    rewrite list_elem_of_fmap. simpl. split.
    - intros ([b y] & -> & [Hb Hy]%list_elem_of_filter). simpl in *. subst b.
      apply list_elem_of_filter in Hy as [Hy ?]. split; [done|]. congruence.
    - intros [Hx Hne]. exists (a, x). split; [done|].
      apply list_elem_of_filter. split; [done|].
      apply list_elem_of_filter. split; [congruence|done]. }
  assert (∀ x, x ∈ select_emails s a ↔ (a, x) ∈ tbl_participants s) as Hbefore.
  { intros x. rewrite select_emails_perm. unfold emails_in_insertion_order, rows_of.
    rewrite list_elem_of_fmap. split.
    - intros ([b y] & -> & [Hb Hy]%list_elem_of_filter). simpl in *. by subst b.
    - intros Hx. exists (a, x). split; [done|]. by apply list_elem_of_filter. }
  split; [by apply Hbefore|]. split.
  - rewrite Hafter. by intros [_ ?].
  - intros e' Hne. rewrite Hafter, Hbefore. tauto.
Qed.

Lemma unregistered_email_leaves_listing_witness :
  ∃ d d', build_activity_dict seeded !! "Chess Club" = Some d
          ∧ build_activity_dict
              (unregister_from_activity seeded "Chess Club" "michael@mergington.edu").2
              !! "Chess Club" = Some d'
          ∧ "michael@mergington.edu" ∈ participants d
          ∧ ("michael@mergington.edu" ∉ participants d').
Proof.
  destruct (unregistered_email_leaves_listing seeded "Chess Club" "michael@mergington.edu"
              "Unregistered michael@mergington.edu from Chess Club")
    as (d & d' & Hd & Hd' & Hin & Hout & _).
  - reflexivity.
  - exists d, d'. split; [exact Hd|]. split; [exact Hd'|]. split; [exact Hin|exact Hout].
Defined.

(** ** Referential integrity *)

Lemma fk_exec s o : fk_participants s → fk_participants (exec s o).
Proof.
  intros Hfk r. rewrite activities_rows_kept.
  destruct o as [a e|a e]; simpl.
  - destruct (signup_cases s a e) as [-> | [-> | [-> | (m & Hm & _ & _ & ->)]]];
      simpl; try apply Hfk.
    intros [Hr | ->%list_elem_of_singleton]%elem_of_app; [by apply Hfk|].
    apply select_max_Some in Hm as (row & Hrow & Hname & _). by exists row.
  - destruct (unregister_cases s a e) as [-> | ->]; simpl; [apply Hfk|].
    intros [_ Hr]%list_elem_of_filter. by apply Hfk.
Qed.

(** X7. The handlers keep the registrations attached to activities, though
    SQLite does not check the foreign key here: from a store in which every
    registration names an existing activity, any sequence of signUp and
    unregister operations leads to such a store again. *)
Theorem registrations_keep_their_activity (s : store) (ops : list op) :
  fk_participants s → fk_participants (foldl exec s ops).
Proof.
  revert s. induction ops as [|o ops IH]; intros s Hfk; simpl; [done|].
  by apply IH, fk_exec.
Qed.

Lemma registrations_keep_their_activity_witness :
  fk_participants
    (foldl exec seeded [SignUp "Sailing" "x@y.z"; SignUp "Chess Club" "x@y.z";
                        Unregister "Chess Club" "daniel@mergington.edu"]).
Proof.
  apply registrations_keep_their_activity.
  unfold fk_participants. apply Forall_forall.
  apply (Forall_impl (λ r, Exists (λ a, row_name a = r.1) (tbl_activities seeded))).
  - by_compute.
  - intros r (a & Ha & Hname)%Exists_exists. by exists a.
Defined.

(** ** Unregister, then sign up again *)

(** X8. In a store that satisfies I1 and I2, an unregister that succeeds
    can be taken back: the signup of the same pair succeeds right after
    it, the participants table then holds the rows it held before (the
    pair has moved to the end), and the listing is the one from before the
    unregister. *)
Theorem unregister_then_signup_same_listing (s : store) (a e message : string) :
  I1 s → I2 s →
  (unregister_from_activity s a e).1 = Ok message →
  (signup_for_activity (unregister_from_activity s a e).2 a e).1 = Ok (signup_message a e)
  ∧ tbl_participants (signup_for_activity (unregister_from_activity s a e).2 a e).2
    ≡ₚ tbl_participants s
  ∧ build_activity_dict (signup_for_activity (unregister_from_activity s a e).2 a e).2
    = build_activity_dict s.
Proof.
  intros Hi1 Hi2.
  destruct (unregister_results s a e) as [H | [H | (Hin & (r & Hr & Hname) & H)]];
    rewrite H; simpl; [done..|]. intros _.
  destruct (select_max_participants s a) as [m|] eqn:Hm.
  2:{ rewrite select_max_None in Hm. by destruct (Hm r Hr). }
  assert (count_participants (delete_participant s a e) a < m) as Hcount.
  { rewrite count_delete_one by done.
    apply select_max_Some in Hm as (r' & Hr' & Hname' & <-).
    specialize (Hi2 r' Hr'). rewrite Hname' in Hi2. lia. }
  assert ((a, e) ∉ tbl_participants (delete_participant s a e)) as Hgone.
  { simpl. rewrite list_elem_of_filter. by intros [? _]. }
  rewrite (signup_ok (delete_participant s a e) a e m) by done. simpl.
  assert (filter (λ r, r ≠ (a, e)) (tbl_participants s) ++ [(a, e)]
          ≡ₚ tbl_participants s) as Hperm.
  { destruct (filter_remove_one (a, e) _ Hi1 Hin) as (l1 & l2 & Hl & ->).
    rewrite Hl, <- app_assoc. apply Permutation_app_head.
    symmetry. apply Permutation_cons_append. }
  split; [done|]. split; [done|].
  by apply listing_permutation.
Qed.

Lemma unregister_then_signup_same_listing_witness :
  build_activity_dict
    (signup_for_activity
       (unregister_from_activity seeded "Chess Club" "michael@mergington.edu").2
       "Chess Club" "michael@mergington.edu").2
  = build_activity_dict seeded.
Proof.
  destruct (unregister_then_signup_same_listing seeded "Chess Club"
              "michael@mergington.edu"
              "Unregistered michael@mergington.edu from Chess Club")
    as (_ & _ & Hsame).
  - apply inv_seeded.
  - apply inv_seeded.
  - reflexivity.
  - exact Hsame.
Defined.

(** ** Operations on different activities *)

Lemma is_registered_rows s a e :
  is_registered s a e = bool_decide ((a, e) ∈ rows_of s a).
Proof.
  unfold is_registered, rows_of. apply bool_decide_ext.
  rewrite list_elem_of_filter. simpl. tauto.
Qed.

(** The answer of a handler depends on the participants table through the
    rows of its own activity only. *)
Lemma answer_rows s s' o :
  tbl_activities s = tbl_activities s' →
  rows_of s (op_activity o) = rows_of s' (op_activity o) →
  answer s o = answer s' o.
Proof.
  intros Hacts Hrows. destruct o as [a e|a e]; simpl in *.
  - unfold signup_for_activity, select_max_participants, insert_participant,
      count_participants.
    rewrite !is_registered_rows, Hacts, Hrows.
    destruct (list_find _ _) as [[i r]|]; simpl; [|done].
    destruct (bool_decide _); simpl; [done|].
    by destruct (_ >=? _).
  - unfold unregister_from_activity, activity_exists.
    rewrite !is_registered_rows, Hacts, Hrows.
    destruct (bool_decide (Exists _ _)); simpl; [|done].
    by destruct (bool_decide _).
Qed.

Lemma rows_of_exec_other s o a' :
  a' ≠ op_activity o → rows_of (exec s o) a' = rows_of s a'.
Proof.
  intros Hne. destruct o as [a e|a e]; simpl in *.
  - destruct (signup_cases s a e) as [-> | [-> | [-> | (m & _ & _ & _ & ->)]]];
      try done.
    unfold rows_of. simpl.
    rewrite filter_app, filter_cons_False, filter_nil by (simpl; congruence).
    apply app_nil_r.
  - destruct (unregister_cases s a e) as [-> | ->]; [done|].
    by apply rows_of_delete_other.
Qed.

(** What an operation does to the rows of its own activity. *)
Lemma rows_of_exec_own s o :
  rows_of (exec s o) (op_activity o)
  = match o, answer s o with
    | SignUp a e, Ok _ => rows_of s a ++ [(a, e)]
    | Unregister a e, Ok _ => filter (λ r, r ≠ (a, e)) (rows_of s a)
    | SignUp a _, Raise _ | Unregister a _, Raise _ => rows_of s a
    end.
Proof.
  destruct o as [a e|a e]; simpl.
  - destruct (signup_cases s a e) as [-> | [-> | [-> | (m & _ & _ & _ & ->)]]];
      try done.
    unfold rows_of. simpl. by rewrite filter_app, filter_cons_True, filter_nil.
  - destruct (unregister_results s a e) as [-> | [-> | (_ & _ & ->)]]; try done.
    unfold rows_of, delete_participant. simpl.
    rewrite !list_filter_filter. apply list_filter_iff. intros r. tauto.
Qed.

(** X9. Operations on different activities do not interfere: each is
    answered as it would be without the other, and the listing after both
    is the same in either order. *)
Theorem operations_on_different_activities_commute (s : store) (o1 o2 : op) :
  op_activity o1 ≠ op_activity o2 →
  answer (exec s o1) o2 = answer s o2
  ∧ answer (exec s o2) o1 = answer s o1
  ∧ build_activity_dict (exec (exec s o1) o2) = build_activity_dict (exec (exec s o2) o1).
Proof.
  intros Hne.
  assert (answer (exec s o1) o2 = answer s o2) as H12.
  { apply answer_rows; [apply activities_rows_kept|].
    apply rows_of_exec_other. congruence. }
  assert (answer (exec s o2) o1 = answer s o1) as H21.
  { apply answer_rows; [apply activities_rows_kept|].
    by apply rows_of_exec_other. }
  split; [done|]. split; [done|].
  apply map_eq. intros a. unfold build_activity_dict.
  rewrite !activities_rows_kept. apply dict_lookup_ext.
  unfold select_emails. f_equal. f_equal.
  destruct (decide (a = op_activity o2)) as [->|Ha2].
  - rewrite (rows_of_exec_other (exec s o2) o1) by congruence.
    rewrite !rows_of_exec_own.
    destruct o2 as [a2 e2|a2 e2]; simpl in Hne; rewrite H12;
      by rewrite (rows_of_exec_other s o1) by congruence.
  - rewrite (rows_of_exec_other (exec s o1) o2) by done.
    destruct (decide (a = op_activity o1)) as [->|Ha1].
    + rewrite !rows_of_exec_own.
      destruct o1 as [a1 e1|a1 e1]; simpl in Ha2; rewrite H21;
        by rewrite (rows_of_exec_other s o2) by done.
    + by rewrite !rows_of_exec_other.
Qed.

Lemma operations_on_different_activities_commute_witness :
  build_activity_dict
    (exec (exec seeded (SignUp "Chess Club" "new@school.edu"))
          (Unregister "Art Club" "amelia@mergington.edu"))
  = build_activity_dict
      (exec (exec seeded (Unregister "Art Club" "amelia@mergington.edu"))
            (SignUp "Chess Club" "new@school.edu")).
Proof.
  apply (operations_on_different_activities_commute seeded
           (SignUp "Chess Club" "new@school.edu")
           (Unregister "Art Club" "amelia@mergington.edu")).
  simpl. discriminate.
Defined.

(** ** [init_db] on any database *)

(** X10. What [init_db] does, by the state it finds.  With at least one
    activity row it changes nothing.  With no activity row and none of the
    seeded registrations present, it succeeds and appends the seed: the
    nine activity rows, and the eighteen registrations after whatever
    registrations were there.  With no activity row and a seeded
    registration present, it raises IntegrityError and the store is as
    before. *)
Theorem init_db_by_cases (s : store) :
  (tbl_activities s ≠ [] → init_db s = (Ok (), s))
  ∧ (tbl_activities s = [] →
     (∀ r, r ∈ seed_participant_rows → r ∉ tbl_participants s) →
     init_db s = (Ok (), Store seed_activity_rows
                           (tbl_participants s ++ seed_participant_rows)))
  ∧ (tbl_activities s = [] →
     ∀ r, r ∈ seed_participant_rows → r ∈ tbl_participants s →
     init_db s = (Raise IntegrityError, s)).
Proof.
  split; [apply init_db_nonempty|]. split.
  - apply init_db_seeds.
  - intros Hempty r. by apply init_db_collision.
Qed.

Lemma init_db_by_cases_witness :
  init_db seeded = (Ok (), seeded)
  ∧ init_db (Store [] [("Robotics", "ann@mergington.edu")])
    = (Ok (), Store seed_activity_rows
                    (("Robotics", "ann@mergington.edu") :: seed_participant_rows))
  ∧ init_db (Store [] [("Art Club", "harper@mergington.edu")])
    = (Raise IntegrityError, Store [] [("Art Club", "harper@mergington.edu")]).
Proof.
  split; [|split].
  - apply (proj1 (init_db_by_cases seeded)). by vm_compute.
  - apply (proj1 (proj2 (init_db_by_cases (Store [] [("Robotics", "ann@mergington.edu")])))).
    + reflexivity.
    + apply Forall_forall. by_compute.
  - apply (proj2 (proj2 (init_db_by_cases (Store [] [("Art Club", "harper@mergington.edu")])))
             eq_refl ("Art Club", "harper@mergington.edu")).
    + by_compute.
    + by_compute.
Defined.

(** X11. [init_db] can only raise IntegrityError, it does so only on a
    database without activity rows that still holds one of the seeded
    registrations, and then it has written nothing. *)
Theorem init_db_raises_only_on_collision (s : store) (x : exn) :
  (init_db s).1 = Raise x →
  x = IntegrityError
  ∧ (init_db s).2 = s
  ∧ tbl_activities s = []
  ∧ ∃ r, r ∈ seed_participant_rows ∧ r ∈ tbl_participants s.
Proof.
  destruct (decide (tbl_activities s = [])) as [Hempty|Hne].
  2:{ by rewrite init_db_nonempty. }
  destruct (decide (Exists (λ r, r ∈ tbl_participants s) seed_participant_rows))
    as [(r & Hr & Hin)%Exists_exists | Hfresh].
  - rewrite (init_db_collision s r) by done. simpl. intros [= <-].
    split; [done|]. split; [done|]. split; [done|]. by exists r.
  - rewrite init_db_seeds; [done|done|].
    intros r Hr Hin. apply Hfresh, Exists_exists. eauto.
Qed.

Lemma init_db_raises_only_on_collision_witness :
  (init_db cleared_store).2 = cleared_store
  ∧ ∃ r, r ∈ seed_participant_rows ∧ r ∈ tbl_participants cleared_store.
Proof.
  destruct (init_db_raises_only_on_collision cleared_store IntegrityError)
    as (_ & Hsame & _ & Hrow).
  - reflexivity.
  - by split.
Defined.

(** X12. [init_db] never updates or removes a row: on every database each
    table after it begins with the rows it held before; and a second run
    changes nothing the first run left. *)
Theorem init_db_only_appends (s : store) :
  tbl_activities s `prefix_of` tbl_activities (init_db s).2
  ∧ tbl_participants s `prefix_of` tbl_participants (init_db s).2
  ∧ (init_db (init_db s).2).2 = (init_db s).2.
Proof.
  split; [|split; [|apply init_db_idempotent]].
  - destruct (decide (tbl_activities s = [])) as [Hempty|Hne].
    + rewrite Hempty. apply prefix_nil.
    + by rewrite init_db_nonempty.
  - destruct (decide (tbl_activities s = [])) as [Hempty|Hne].
    + rewrite init_db_empty by done.
      destruct (seed_activities s INITIAL_ACTIVITIES) as [s'|e] eqn:Hrun; simpl; [|done].
      apply seed_activities_Ok in Hrun as (_ & -> & _). by apply prefix_app_r.
    + by rewrite init_db_nonempty.
Qed.

(** ** Capacity after an unregister *)

(** X20. An unregister that succeeds frees a place: in a store that
    satisfies I1 and I2, also one whose activity was full, the next signup
    for that activity of any email not registered for it succeeds. *)
Theorem unregister_frees_a_place (s : store) (a e e' message : string) :
  I1 s → I2 s →
  (unregister_from_activity s a e).1 = Ok message →
  (a, e') ∉ tbl_participants s →
  (signup_for_activity (unregister_from_activity s a e).2 a e').1
  = Ok (signup_message a e').
Proof.
  intros Hi1 Hi2.
  destruct (unregister_results s a e) as [H | [H | (Hin & (r & Hr & Hname) & H)]];
    rewrite H; simpl; [done..|]. intros _ Hnew.
  destruct (select_max_participants s a) as [m|] eqn:Hm.
  2:{ rewrite select_max_None in Hm. by destruct (Hm r Hr). }
  rewrite (signup_ok (delete_participant s a e) a e' m); [done|done| |].
  - simpl. rewrite list_elem_of_filter. by intros [_ ?].
  - rewrite count_delete_one by done.
    apply select_max_Some in Hm as (r' & Hr' & Hname' & <-).
    specialize (Hi2 r' Hr'). rewrite Hname' in Hi2. lia.
Qed.

Lemma unregister_frees_a_place_witness :
  (signup_for_activity full_store "Robotics" "bob@mergington.edu").1 = Raise Full
  ∧ (signup_for_activity
       (unregister_from_activity full_store "Robotics" "ann@mergington.edu").2
       "Robotics" "bob@mergington.edu").1
    = Ok "Signed up bob@mergington.edu for Robotics".
Proof.
  split; [reflexivity|].
  apply (unregister_frees_a_place full_store "Robotics" "ann@mergington.edu"
           "bob@mergington.edu" "Unregistered ann@mergington.edu from Robotics").
  - unfold I1. by_compute.
  - unfold I2. apply Forall_forall. by_compute.
  - reflexivity.
  - by_compute.
Defined.
End AppProofs.

(** * The issue-seeding script *)

Module CreateIssuesProofs.
Import CreateIssues.

(** ** Running a script *)

Lemma bind_run {A B} (m : proc A) (k : A → proc B) (tr : list event) :
  (m ≫= k) tr = match m tr with
                | (tr', Done a) => k a tr'
                | (tr', Exit code) => (tr', Exit code)
                end.
Proof. done. Qed.

Lemma print_then {B} (line : string) (k : proc B) (tr : list event) :
  (print line;; k) tr = k (tr ++ [Print line]).
Proof. done. Qed.

Lemma posts_app tr1 tr2 : posts (tr1 ++ tr2) = posts tr1 ++ posts tr2.
Proof. apply omap_app. Qed.

Lemma posts_prints lines : posts (Print <$> lines) = [].
Proof. by induction lines. Qed.

Lemma posts_snoc_print tr line : posts (tr ++ [Print line]) = posts tr.
Proof. by rewrite posts_app, app_nil_r. Qed.

(** The loops that only print. *)
Lemma preview_loop_prints i issues :
  ∃ lines, ∀ tr, preview_loop i issues tr = (tr ++ (Print <$> lines), Done ()).
Proof.
  revert i. induction issues as [|issue rest IH]; intros i.
  - exists []. intros tr. simpl. by rewrite app_nil_r.
  - destruct (IH (S i)) as [lines Hlines].
    eexists (_ :: _ :: _ :: lines). intros tr. simpl.
    rewrite !print_then, Hlines, <- !app_assoc. done.
Qed.

Lemma print_created_prints created_issues :
  ∃ lines, ∀ tr, print_created created_issues tr = (tr ++ (Print <$> lines), Done ()).
Proof.
  induction created_issues as [|issue rest [lines Hlines]].
  - exists []. intros tr. simpl. by rewrite app_nil_r.
  - eexists (_ :: _ :: lines). intros tr. simpl.
    rewrite !print_then, Hlines, <- !app_assoc. done.
Qed.

Lemma print_failed_prints failed_issues tr :
  print_failed failed_issues tr
  = (tr ++ (Print <$> ((λ title, "  - " +:+ title) <$> failed_issues)), Done ()).
Proof.
  revert tr. induction failed_issues as [|title rest IH]; intros tr; simpl.
  - by rewrite app_nil_r.
  - rewrite print_then, IH, <- app_assoc. done.
Qed.

(** ** One call to the remote *)

Lemma create_github_issue_run w args (i : issue) tr :
  ∃ lines,
    create_github_issue w (token args) (repo args) (title i) (body i) (labels i) tr
    = (tr ++ Post (request_for args i) :: (Print <$> lines),
       Done (if status_code (remote w (length (posts tr))) =? 201
             then Some (json (remote w (length (posts tr))))
             else None))
    ∧ (failed_at w (length (posts tr)) →
         error_line w (length (posts tr)) i ∈ lines).
Proof.
  unfold create_github_issue. rewrite bind_run. unfold requests_post.
  destruct (Z.eqb_spec (status_code (remote w (length (posts tr)))) 201) as [Heq|Hne].
  - exists []. split; [|by intros []]. done.
  - exists [error_line w (length (posts tr)) i;
            "Response: " +:+ text (remote w (length (posts tr)))]. split.
    + rewrite !print_then. unfold mret, proc_ret. by rewrite <- !app_assoc.
    + intros _. left.
Qed.

(** ** The creating loop *)

Lemma create_loop_run w args total issues :
  ∀ i created_issues failed_issues tr,
  ∃ added,
    create_loop w args total i issues created_issues failed_issues tr
    = (tr ++ added,
       Done (created_issues ++ (outcomes w (length (posts tr)) issues).1,
             failed_issues ++ (outcomes w (length (posts tr)) issues).2))
    ∧ posts added = request_for args <$> issues
    ∧ (∀ k issue_data, issues !! k = Some issue_data →
         failed_at w (length (posts tr) + k) →
         Print (error_line w (length (posts tr) + k) issue_data) ∈ added).
Proof.
  induction issues as [|issue_data rest IH]; intros i cr fl tr.
  - exists []. simpl. rewrite !app_nil_r. done.
  - simpl. rewrite print_then, bind_run.
    set (line := nl +:+ "[" +:+ pretty i +:+ "/" +:+ pretty total +:+ "] Creating: "
                 +:+ title issue_data).
    destruct (create_github_issue_run w args issue_data (tr ++ [Print line]))
      as (lines & -> & Herr).
    rewrite posts_snoc_print in *.
    set (k := length (posts tr)) in *.
    set (tr1 := (tr ++ [Print line]) ++ Post (request_for args issue_data) :: (Print <$> lines)).
    assert (length (posts tr1) = S k) as Hk.
    { unfold tr1. rewrite posts_app, posts_snoc_print. simpl.
      rewrite posts_prints, length_app. simpl. unfold k. lia. }
    destruct (Z.eqb_spec (status_code (remote w k)) 201) as [Heq|Hne].
    + rewrite print_then.
      set (done_line := "✓ Created: " +:+ html_url (json (remote w k))).
      destruct (IH (S i) (cr ++ [json (remote w k)]) fl (tr1 ++ [Print done_line]))
        as (added & -> & Hposts & Hlog).
      rewrite posts_snoc_print, Hk in *.
      exists (Print line :: Post (request_for args issue_data)
              :: (Print <$> lines) ++ Print done_line :: added).
      split; [|split].
      * unfold tr1. rewrite <- !app_assoc. reflexivity.
      * simpl. rewrite posts_app. simpl. by rewrite posts_prints, Hposts.
      * intros [|j] issue Hj Hfail.
        -- rewrite Nat.add_0_r in Hfail. by destruct Hfail.
        -- simpl in Hj. rewrite <- Nat.add_succ_comm in *.
           do 2 right. apply elem_of_app. right. right. by apply Hlog.
    + rewrite print_then.
      destruct (IH (S i) cr (fl ++ [title issue_data]) (tr1 ++ [Print "✗ Failed to create issue"]))
        as (added & -> & Hposts & Hlog).
      rewrite posts_snoc_print, Hk in *.
      exists (Print line :: Post (request_for args issue_data)
              :: (Print <$> lines) ++ Print "✗ Failed to create issue" :: added).
      split; [|split].
      * unfold tr1. rewrite <- !app_assoc. reflexivity.
      * simpl. rewrite posts_app. simpl. by rewrite posts_prints, Hposts.
      * intros [|j] issue Hj Hfail.
        -- rewrite Nat.add_0_r in *. injection Hj as <-.
           do 2 right. apply elem_of_app. left.
           apply list_elem_of_fmap. exists (error_line w k issue_data). auto.
        -- simpl in Hj. rewrite <- Nat.add_succ_comm in *.
           do 2 right. apply elem_of_app. right. right. by apply Hlog.
Qed.

(** The records that fail are those the remote refuses. *)
Lemma outcomes_failed w issues :
  ∀ k, (outcomes w k issues).2 ≠ [] ↔ ∃ j, (j < length issues)%nat ∧ failed_at w (k + j).
Proof.
  induction issues as [|issue_data rest IH]; intros k; simpl.
  - split; [done|]. intros (j & Hj & _). lia.
  - destruct (Z.eqb_spec (status_code (remote w k)) 201) as [Heq|Hne]; simpl.
    + rewrite IH. split.
      * intros (j & Hj & Hf). exists (S j). split; [lia|].
        by rewrite <- Nat.add_succ_comm.
      * intros ([|j] & Hj & Hf).
        -- rewrite Nat.add_0_r in Hf. by destruct Hf.
        -- exists j. split; [lia|]. by rewrite Nat.add_succ_comm.
    + split; [|done]. intros _. exists 0%nat. split; [lia|].
      by rewrite Nat.add_0_r.
Qed.

Lemma outcomes_failed_titles w issues :
  ∀ k j issue_data, issues !! j = Some issue_data → failed_at w (k + j) →
    title issue_data ∈ (outcomes w k issues).2.
Proof.
  induction issues as [|i rest IH]; intros k j issue_data Hj Hf; [done|]. simpl.
  destruct j as [|j]; simpl in Hj.
  - injection Hj as ->. rewrite Nat.add_0_r in Hf.
    destruct (Z.eqb_spec (status_code (remote w k)) 201); [done|]. left.
  - rewrite <- Nat.add_succ_comm in Hf. specialize (IH (S k) j issue_data Hj Hf).
    destruct (Z.eqb_spec (status_code (remote w k)) 201); simpl; [done|by right].
Qed.

(** ** The whole script *)

Lemma load_issues_data_Loaded w file_path issues tr :
  files w file_path = Loaded issues →
  load_issues_data w file_path tr = (tr, Done issues).
Proof. unfold load_issues_data. by intros ->. Qed.

Lemma mret_then {A B} (a : A) (k : A → proc B) (tr : list event) :
  (mret a ≫= k) tr = k a tr.
Proof. done. Qed.

(** The script in creating mode: some lines, the loop, the summary. *)
Lemma main_creating w inv issues :
  dry_run (parse_args inv) = false →
  truthy (token (parse_args inv)) = true →
  truthy (repo (parse_args inv)) = true →
  files w (file (parse_args inv)) = Loaded issues →
  ∃ before added after,
    run w inv = (before ++ added ++ after,
                 if decide ((outcomes w 0 issues).2 = []) then 0 else 1)
    ∧ posts before = [] ∧ posts after = []
    ∧ posts added = request_for (parse_args inv) <$> issues
    ∧ (∀ k issue_data, issues !! k = Some issue_data → failed_at w k →
         Print (error_line w k issue_data) ∈ added)
    ∧ (∀ title, title ∈ (outcomes w 0 issues).2 → Print ("  - " +:+ title) ∈ after).
Proof.
  intros Hdry Htoken Hrepo Hfile. unfold run, main. cbv zeta.
  set (args := parse_args inv) in *. clearbody args.
  rewrite Hdry, Htoken, Hrepo. simpl negb. simpl andb. cbv iota.
  rewrite mret_then, mret_then, bind_run, (load_issues_data_Loaded _ _ issues) by done.
  rewrite !print_then, bind_run. simpl app.
  destruct (create_loop_run w args (length issues) issues 1%nat [] []
              [Print ("Loaded " +:+ pretty (length issues) +:+ " issues from " +:+ file args);
               Print (nl +:+ "Creating issues in repository: " +:+ py_str (repo args));
               Print rule])
    as (added & -> & Hposts & Hlog).
  simpl posts in *. simpl length in *. simpl app.
  set (created_issues := (outcomes w 0 issues).1).
  set (failed_issues := (outcomes w 0 issues).2) in *.
  rewrite !print_then.
  assert (∃ lines, ∀ tr,
            (if bool_decide (created_issues ≠ [])
             then print (nl +:+ "✓ Created issues:");; print_created created_issues
             else mret ()) tr = (tr ++ (Print <$> lines), Done ()))
    as [created_lines Hcreated].
  { destruct (bool_decide (created_issues ≠ [])).
    - destruct (print_created_prints created_issues) as [lines Hlines].
      exists ((nl +:+ "✓ Created issues:") :: lines). intros tr.
      by rewrite print_then, Hlines, <- app_assoc.
    - exists []. intros tr. unfold mret, proc_ret. by rewrite app_nil_r. }
  rewrite bind_run, Hcreated.
  set (header := [Print ("Loaded " +:+ pretty (length issues) +:+ " issues from " +:+ file args);
                  Print (nl +:+ "Creating issues in repository: " +:+ py_str (repo args));
                  Print rule]).
  set (summary := [nl +:+ rule; nl +:+ "Summary:";
                   "  Total issues: " +:+ pretty (length issues);
                   "  Successfully created: " +:+ pretty (length created_issues);
                   "  Failed: " +:+ pretty (length failed_issues)] ++ created_lines).
  assert (∀ k issue_data, issues !! k = Some issue_data → failed_at w k →
            Print (error_line w k issue_data) ∈ added) as Hlog' by exact Hlog.
  destruct (decide (failed_issues = [])) as [Hnone|Hsome].
  - rewrite bool_decide_false by (intros Hne; by apply Hne).
    rewrite mret_then. unfold print.
    exists header, added,
      (Print <$> (summary ++ [nl +:+ "✓ All issues created successfully!"])).
    split; [|split; [done|split; [apply posts_prints|split; [done|split; [done|]]]]].
    + f_equal. unfold summary, header. rewrite !fmap_app, <- !app_assoc. done.
    + rewrite Hnone. by intros t ?%elem_of_nil.
  - rewrite bool_decide_true by done.
    rewrite bind_run, print_then, bind_run, print_failed_prints.
    exists header, added,
      (Print <$> (summary ++ (nl +:+ "✗ Failed issues:")
                            :: ((λ title, "  - " +:+ title) <$> failed_issues))).
    split; [|split; [done|split; [apply posts_prints|split; [done|split; [done|]]]]].
    + unfold sys_exit. f_equal.
      unfold summary, header. rewrite !fmap_app, <- !app_assoc. done.
    + intros t Ht. apply list_elem_of_fmap. exists ("  - " +:+ t). split; [done|].
      apply elem_of_app. right. right. apply list_elem_of_fmap. by exists t.
Qed.

(** C9. For every list of records, a record the remote does not answer with
    201 is a failure of that record only: its error is logged, its title is
    listed among the failed ones, and the loop goes on, so that every
    record of the file gets its one call, in order; after the last record
    the script exits with a non-zero status exactly when some record
    failed. *)
Theorem failures_do_not_stop_the_loop (w : world) (inv : invocation) (issues : list issue) :
  dry_run (parse_args inv) = false →
  truthy (token (parse_args inv)) = true →
  truthy (repo (parse_args inv)) = true →
  files w (file (parse_args inv)) = Loaded issues →
  posts (trace w inv) = request_for (parse_args inv) <$> issues
  ∧ (∀ k issue_data, issues !! k = Some issue_data → failed_at w k →
       Print (error_line w k issue_data) ∈ trace w inv
       ∧ Print ("  - " +:+ title issue_data) ∈ trace w inv)
  ∧ (exit_status w inv ≠ 0 ↔ ∃ k, (k < length issues)%nat ∧ failed_at w k)
  ∧ (exit_status w inv = 0 ∨ exit_status w inv = 1).
Proof.
  intros Hdry Htoken Hrepo Hfile.
  destruct (main_creating w inv issues Hdry Htoken Hrepo Hfile)
    as (before & added & after & Hrun & Hbefore & Hafter & Hposts & Hlog & Hlist).
  unfold trace, exit_status. rewrite Hrun. simpl.
  split; [|split; [|split]].
  - by rewrite !posts_app, Hbefore, Hafter, Hposts, app_nil_r.
  - intros k issue_data Hk Hfail. rewrite !elem_of_app. split.
    + right. left. by apply Hlog.
    + right. right. apply Hlist.
      by apply (outcomes_failed_titles w issues 0%nat k).
  - rewrite <- (outcomes_failed w issues 0%nat).
    destruct (decide ((outcomes w 0 issues).2 = [])); split; done.
  - destruct (decide ((outcomes w 0 issues).2 = [])); auto.
Qed.

Lemma failures_do_not_stop_the_loop_witness :
  posts (trace sample_world sample_invocation)
    = request_for (parse_args sample_invocation) <$> sample_issues
  ∧ Print "Error creating issue 'Fix race': 422" ∈ trace sample_world sample_invocation
  ∧ exit_status sample_world sample_invocation ≠ 0.
Proof.
  destruct (failures_do_not_stop_the_loop sample_world sample_invocation sample_issues)
    as (Hposts & Hlog & Hexit & _).
  - reflexivity.
  - reflexivity.
  - reflexivity.
  - reflexivity.
  - split; [exact Hposts|]. split.
    + apply (Hlog 1%nat (Issue "Fix race" "Wrap the checks and the insert in a transaction"
                            ["bug"; "backend"])).
      * reflexivity.
      * unfold failed_at. simpl. discriminate.
    + apply Hexit. exists 1%nat. split.
      * simpl. lia.
      * unfold failed_at. simpl. discriminate.
Defined.

(** ** Validation of the arguments *)

Lemma absent_is_falsy (cli env : option string) :
  cli = None → env = None → truthy (from_option Some env cli) = false.
Proof. by intros -> ->. Qed.

Lemma main_no_token w inv :
  dry_run (parse_args inv) = false → truthy (token (parse_args inv)) = false →
  run w inv = ([Print token_error], 1).
Proof.
  intros Hdry Htoken. unfold run, main. cbv zeta.
  set (args := parse_args inv) in *. clearbody args.
  by rewrite Hdry, Htoken.
Qed.

Lemma main_no_repo w inv :
  truthy (repo (parse_args inv)) = false →
  run w inv = ([Print token_error], 1) ∨ run w inv = ([Print repo_error], 1).
Proof.
  intros Hrepo.
  destruct (dry_run (parse_args inv)) eqn:Hdry;
    [|destruct (truthy (token (parse_args inv))) eqn:Htoken].
  - right. unfold run, main. cbv zeta.
    set (args := parse_args inv) in *. clearbody args.
    by rewrite Hdry, Hrepo.
  - right. unfold run, main. cbv zeta.
    set (args := parse_args inv) in *. clearbody args.
    by rewrite Hdry, Htoken, Hrepo.
  - left. by apply main_no_token.
Qed.

Lemma main_preview_run w inv :
  dry_run (parse_args inv) = true → truthy (repo (parse_args inv)) = true →
  ∃ lines,
    main w inv [] = (Print <$> lines,
                     match files w (file (parse_args inv)) with
                     | Loaded _ => Done ()
                     | _ => Exit 1
                     end).
Proof.
  intros Hdry Hrepo. unfold main. cbv zeta.
  set (args := parse_args inv) in *. clearbody args.
  rewrite Hdry, Hrepo. simpl negb. simpl andb. cbv iota.
  rewrite !mret_then, bind_run. unfold load_issues_data.
  destruct (files w (file args)) as [|e|issues].
  - by exists ["Error: " +:+ file args +:+ " not found"].
  - by exists ["Error: Invalid JSON in " +:+ file args +:+ ": " +:+ e].
  - unfold mret at 1, proc_ret at 1. rewrite !print_then, bind_run.
    destruct (preview_loop_prints 1 issues) as [lines ->].
    rewrite !print_then. unfold print.
    exists (("Loaded " +:+ pretty (length issues) +:+ " issues from " +:+ file args)
            :: (nl +:+ "DRY RUN - Issues that would be created:") :: rule
            :: lines ++ [nl +:+ rule;
                         nl +:+ "To create these issues, run without --dry-run flag"]).
    f_equal. simpl. rewrite fmap_app, <- !app_assoc. done.
Qed.

Lemma main_preview w inv :
  dry_run (parse_args inv) = true →
  posts (trace w inv) = []
  ∧ (truthy (repo (parse_args inv)) = true →
     ∀ issues, files w (file (parse_args inv)) = Loaded issues → exit_status w inv = 0).
Proof.
  intros Hdry.
  destruct (truthy (repo (parse_args inv))) eqn:Hrepo.
  2:{ split; [|done]. unfold trace.
      by destruct (main_no_repo w inv Hrepo) as [-> | ->]. }
  destruct (main_preview_run w inv Hdry Hrepo) as [lines Hrun].
  unfold trace, exit_status, run. rewrite Hrun. split.
  - destruct (files w (file (parse_args inv))); apply posts_prints.
  - by intros _ issues ->.
Qed.

(** C8, as the code has it.  Without a credential and outside the preview
    mode, or without an owner/repo identifier, the script prints one error
    line and exits with status 1, and no remote call is made.  The preview
    mode does not ask for the credential: it makes no remote call, and
    with an identifier and a readable file it exits with status 0. *)
Theorem missing_argument_is_rejected (w : world) (inv : invocation) :
  (dry_run (parse_args inv) = false → truthy (token (parse_args inv)) = false →
     trace w inv = [Print token_error]
     ∧ exit_status w inv = 1 ∧ posts (trace w inv) = [])
  ∧ (truthy (repo (parse_args inv)) = false →
     (trace w inv = [Print token_error] ∨ trace w inv = [Print repo_error])
     ∧ exit_status w inv = 1 ∧ posts (trace w inv) = [])
  ∧ (dry_run (parse_args inv) = true →
     posts (trace w inv) = []
     ∧ (truthy (repo (parse_args inv)) = true →
        ∀ issues, files w (file (parse_args inv)) = Loaded issues →
          exit_status w inv = 0)).
Proof.
  split; [|split].
  - intros Hdry Htoken. unfold trace, exit_status.
    by rewrite (main_no_token w inv Hdry Htoken).
  - intros Hrepo. unfold trace, exit_status.
    destruct (main_no_repo w inv Hrepo) as [-> | ->]; simpl; auto.
  - apply main_preview.
Qed.

Lemma missing_argument_is_rejected_witness :
  (trace sample_world (Invocation None (Some "o/r") false None None None)
     = [Print token_error]
   ∧ exit_status sample_world (Invocation None (Some "o/r") false None None None) = 1)
  ∧ exit_status sample_world (Invocation (Some "ghp_token") None false None None None) = 1
  ∧ posts (trace sample_world preview_invocation) = []
  ∧ exit_status sample_world preview_invocation = 0.
Proof.
  destruct (missing_argument_is_rejected sample_world
              (Invocation None (Some "o/r") false None None None)) as (Htoken & _ & _).
  destruct (missing_argument_is_rejected sample_world
              (Invocation (Some "ghp_token") None false None None None)) as (_ & Hrepo & _).
  destruct (missing_argument_is_rejected sample_world preview_invocation)
    as (_ & _ & Hpreview).
  destruct Htoken as (Ht1 & Ht2 & _); [reflexivity|reflexivity|].
  destruct Hrepo as (_ & Hr & _); [reflexivity|].
  destruct Hpreview as (Hp1 & Hp2); [reflexivity|].
  split; [by split|]. split; [exact Hr|]. split; [exact Hp1|].
  apply (Hp2 eq_refl sample_issues). reflexivity.
Defined.

(** C8, as the claim has it, fails: a preview without a credential prints
    the planned issues and exits with status 0. *)
Lemma preview_without_token_exits_zero :
  token (parse_args preview_invocation) = None
  ∧ exit_status sample_world preview_invocation = 0
  ∧ ¬ (∀ w inv,
         token (parse_args inv) = None ∨ repo (parse_args inv) = None →
         exit_status w inv ≠ 0).
Proof.
  split; [done|]. split; [by vm_compute|].
  intros Hclaim. apply (Hclaim sample_world preview_invocation).
  - by left.
  - by vm_compute.
Qed.

(** * Further properties of the issue-seeding script *)

(** ** The run once the arguments are accepted *)

Lemma print_created_lines created_issues tr :
  print_created created_issues tr = (tr ++ (Print <$> created_lines created_issues), Done ()).
Proof.
  revert tr. induction created_issues as [|issue rest IH]; intros tr; simpl.
  - by rewrite app_nil_r.
  - rewrite !print_then, IH, <- !app_assoc. done.
Qed.

(** With the arguments accepted, a file that cannot be loaded ends the run. *)
Lemma main_unreadable w inv :
  dry_run (parse_args inv) = true ∨ truthy (token (parse_args inv)) = true →
  truthy (repo (parse_args inv)) = true →
  match files w (file (parse_args inv)) with
  | FileNotFoundError =>
      run w inv = ([Print ("Error: " +:+ file (parse_args inv) +:+ " not found")], 1)
  | JSONDecodeError e =>
      run w inv = ([Print ("Error: Invalid JSON in " +:+ file (parse_args inv)
                           +:+ ": " +:+ e)], 1)
  | Loaded _ => True
  end.
Proof.
  intros Hmode Hrepo. unfold run, main. cbv zeta.
  set (args := parse_args inv) in *. clearbody args.
  assert (negb (dry_run args) && negb (truthy (token args)) = false) as ->.
  { destruct Hmode as [-> | ->]; [done|]. by destruct (dry_run args). }
  rewrite Hrepo. simpl negb. cbv iota.
  rewrite !mret_then, bind_run. unfold load_issues_data.
  by destruct (files w (file args)) as [|e|issues].
Qed.

(** X13. A file that is missing or is not JSON stops the script before
    anything else happens, in the creating mode and in the preview alike:
    with the arguments accepted, the script prints one error line that
    names the path, exits with status 1, and has called the remote not
    once. *)
Theorem unreadable_file_stops_the_script (w : world) (inv : invocation) :
  dry_run (parse_args inv) = true ∨ truthy (token (parse_args inv)) = true →
  truthy (repo (parse_args inv)) = true →
  (files w (file (parse_args inv)) = FileNotFoundError →
   run w inv = ([Print ("Error: " +:+ file (parse_args inv) +:+ " not found")], 1))
  ∧ (∀ e, files w (file (parse_args inv)) = JSONDecodeError e →
     run w inv = ([Print ("Error: Invalid JSON in " +:+ file (parse_args inv)
                          +:+ ": " +:+ e)], 1))
  ∧ ((∀ issues, files w (file (parse_args inv)) ≠ Loaded issues) →
     posts (trace w inv) = [] ∧ exit_status w inv = 1).
Proof.
  intros Hmode Hrepo.
  pose proof (main_unreadable w inv Hmode Hrepo) as Hload.
  unfold trace, exit_status.
  destruct (files w (file (parse_args inv))) as [|e|issues].
  - rewrite Hload. split; [done|]. split; [done|]. done.
  - rewrite Hload. split; [done|]. split; [by intros e' [= <-]|done].
  - split; [done|]. split; [done|]. intros Hno. by destruct (Hno issues).
Qed.

Lemma unreadable_file_stops_the_script_witness :
  run (World (λ _, FileNotFoundError) (remote sample_world)) sample_invocation
  = ([Print "Error: issues_data.json not found"], 1).
Proof.
  apply (unreadable_file_stops_the_script
           (World (λ _, FileNotFoundError) (remote sample_world)) sample_invocation).
  - right. reflexivity.
  - reflexivity.
  - reflexivity.
Defined.

(** ** The report of a creating run *)

(** The script in creating mode, with the lines of its report. *)
Lemma main_creating_report w inv issues :
  dry_run (parse_args inv) = false →
  truthy (token (parse_args inv)) = true →
  truthy (repo (parse_args inv)) = true →
  files w (file (parse_args inv)) = Loaded issues →
  ∃ before added,
    run w inv
    = (before ++ added
       ++ (Print <$> report_lines (length issues)
                       (outcomes w 0 issues).1 (outcomes w 0 issues).2),
       if decide ((outcomes w 0 issues).2 = []) then 0 else 1).
Proof.
  intros Hdry Htoken Hrepo Hfile. unfold run, main. cbv zeta.
  set (args := parse_args inv) in *. clearbody args.
  rewrite Hdry, Htoken, Hrepo. simpl negb. simpl andb. cbv iota.
  rewrite mret_then, mret_then, bind_run, (load_issues_data_Loaded _ _ issues) by done.
  rewrite !print_then, bind_run. simpl app.
  set (header := [Print ("Loaded " +:+ pretty (length issues) +:+ " issues from " +:+ file args);
                  Print (nl +:+ "Creating issues in repository: " +:+ py_str (repo args));
                  Print rule]).
  destruct (create_loop_run w args (length issues) issues 1%nat [] [] header)
    as (added & -> & _ & _).
  simpl posts. simpl length. simpl app.
  set (created_issues := (outcomes w 0 issues).1).
  set (failed_issues := (outcomes w 0 issues).2).
  rewrite !print_then, bind_run.
  exists header, added. unfold report_lines.
  assert (∀ (xs ys : list event) (ls : list string) (l : string),
            (xs ++ ys) ++ [Print l] = xs ++ (ys ++ [Print l])) as Hsnoc
    by (intros; by rewrite <- app_assoc).
  destruct (bool_decide (created_issues ≠ [])) eqn:Hcreated.
  - rewrite print_then, print_created_lines.
    destruct (decide (failed_issues = [])) as [Hnone|Hsome].
    + rewrite bool_decide_false by (intros Hne; by apply Hne).
      unfold mret, proc_ret, print, success_line. f_equal.
      rewrite !fmap_app. simpl. rewrite <- !app_assoc. done.
    + rewrite bool_decide_true by done.
      rewrite bind_run, print_then, bind_run, print_failed_prints.
      unfold sys_exit. f_equal.
      rewrite !fmap_app. simpl. rewrite <- !app_assoc. done.
  - unfold mret at 1, proc_ret at 1.
    destruct (decide (failed_issues = [])) as [Hnone|Hsome].
    + rewrite bool_decide_false by (intros Hne; by apply Hne).
      unfold mret, proc_ret, print, success_line. f_equal.
      simpl. rewrite <- !app_assoc. done.
    + rewrite bool_decide_true by done.
      rewrite bind_run, print_then, bind_run, print_failed_prints.
      unfold sys_exit. f_equal.
      simpl. rewrite <- !app_assoc. done.
Qed.

Lemma outcomes_lengths w issues :
  ∀ k, (length (outcomes w k issues).1 + length (outcomes w k issues).2)%nat
       = length issues.
Proof.
  induction issues as [|i rest IH]; intros k; [done|]. simpl.
  specialize (IH (S k)).
  destruct (status_code (remote w k) =? 201); simpl; lia.
Qed.

Lemma outcomes_created w issues :
  ∀ k j, (j < length issues)%nat → ¬ failed_at w (k + j) →
    json (remote w (k + j)) ∈ (outcomes w k issues).1.
Proof.
  induction issues as [|i rest IH]; intros k j Hj Hok; simpl in *; [lia|].
  destruct j as [|j].
  - rewrite Nat.add_0_r in *. unfold failed_at in Hok.
    destruct (Z.eqb_spec (status_code (remote w k)) 201); [left|done].
  - rewrite <- Nat.add_succ_comm in *.
    assert (json (remote w (S k + j)) ∈ (outcomes w (S k) rest).1) as Hin
      by (apply IH; [lia|done]).
    destruct (status_code (remote w k) =? 201); simpl; [by right|done].
Qed.

(** X14. The report of a creating run counts every record once: the
    script prints the number of records, the number created and the number
    failed, the last two add up to the first, and the number failed is
    the number of titles listed as failed. *)
Theorem report_counts_add_up (w : world) (inv : invocation) (issues : list issue) :
  dry_run (parse_args inv) = false →
  truthy (token (parse_args inv)) = true →
  truthy (repo (parse_args inv)) = true →
  files w (file (parse_args inv)) = Loaded issues →
  ∃ created failed : nat,
    (created + failed)%nat = length issues
    ∧ failed = length (outcomes w 0 issues).2
    ∧ Print ("  Total issues: " +:+ pretty (length issues)) ∈ trace w inv
    ∧ Print ("  Successfully created: " +:+ pretty created) ∈ trace w inv
    ∧ Print ("  Failed: " +:+ pretty failed) ∈ trace w inv.
Proof.
  intros Hdry Htoken Hrepo Hfile.
  destruct (main_creating_report w inv issues Hdry Htoken Hrepo Hfile)
    as (before & added & Hrun).
  exists (length (outcomes w 0 issues).1), (length (outcomes w 0 issues).2).
  split; [apply outcomes_lengths|]. split; [done|].
  assert (∀ line, line ∈ [ nl +:+ rule; nl +:+ "Summary:";
                           "  Total issues: " +:+ pretty (length issues);
                           "  Successfully created: "
                             +:+ pretty (length (outcomes w 0 issues).1);
                           "  Failed: " +:+ pretty (length (outcomes w 0 issues).2) ] →
                  Print line ∈ trace w inv) as Hline.
  { intros line Hin. unfold trace. rewrite Hrun.
    apply elem_of_app. right. apply elem_of_app. right.
    apply list_elem_of_fmap_2. unfold report_lines. apply elem_of_app. by left. }
  split; [|split]; apply Hline; simpl.
  - do 2 right. left.
  - do 3 right. left.
  - do 4 right. left.
Qed.

Lemma report_counts_add_up_witness :
  Print "  Total issues: 3" ∈ trace sample_world sample_invocation
  ∧ Print "  Successfully created: 2" ∈ trace sample_world sample_invocation
  ∧ Print "  Failed: 1" ∈ trace sample_world sample_invocation.
Proof.
  destruct (report_counts_add_up sample_world sample_invocation sample_issues)
    as (created & failed & Hsum & Hfailed & Htotal & Hcreated & Hfail).
  - reflexivity.
  - reflexivity.
  - reflexivity.
  - reflexivity.
  - assert (failed = 1%nat) as -> by (rewrite Hfailed; reflexivity).
    assert (created = 2%nat) as -> by (simpl in Hsum; lia).
    split; [exact Htotal|]. split; [exact Hcreated|exact Hfail].
Defined.

(** X15. Every record the remote answers with 201 is listed in the report
    of a creating run, with the number, the title and the address of the
    issue the answer describes. *)
Theorem created_issues_are_reported (w : world) (inv : invocation) (issues : list issue) :
  dry_run (parse_args inv) = false →
  truthy (token (parse_args inv)) = true →
  truthy (repo (parse_args inv)) = true →
  files w (file (parse_args inv)) = Loaded issues →
  ∀ k, (k < length issues)%nat → ¬ failed_at w k →
    Print ("  - #" +:+ pretty (number (json (remote w k))) +:+ ": "
           +:+ created_title (json (remote w k))) ∈ trace w inv
    ∧ Print ("    " +:+ html_url (json (remote w k))) ∈ trace w inv.
Proof.
  intros Hdry Htoken Hrepo Hfile k Hk Hok.
  destruct (main_creating_report w inv issues Hdry Htoken Hrepo Hfile)
    as (before & added & Hrun).
  pose proof (outcomes_created w issues 0%nat k Hk Hok) as Hin. simpl in Hin.
  assert (∀ line, line ∈ created_lines (outcomes w 0 issues).1 →
                  Print line ∈ trace w inv) as Hline.
  { intros line Hline. unfold trace. rewrite Hrun.
    apply elem_of_app. right. apply elem_of_app. right.
    apply list_elem_of_fmap_2. unfold report_lines.
    apply elem_of_app. right. apply elem_of_app. left.
    rewrite bool_decide_true; [by right|].
    intros Hnil. rewrite Hnil in Hin. by apply elem_of_nil in Hin. }
  split; apply Hline; apply list_elem_of_bind; exists (json (remote w k));
    (split; [|done]).
  - left.
  - right. left.
Qed.

Lemma created_issues_are_reported_witness :
  Print "  - #1: created" ∈ trace sample_world sample_invocation
  ∧ Print "    https://github.com/o/r/issues/1" ∈ trace sample_world sample_invocation.
Proof.
  apply (created_issues_are_reported sample_world sample_invocation sample_issues
           eq_refl eq_refl eq_refl eq_refl 0%nat).
  - simpl. lia.
  - unfold failed_at. simpl. by intros Hne.
Defined.

Lemma failed_line_is_not_success title : "  - " +:+ title ≠ success_line.
Proof.
  intros Heq.
  apply (f_equal (λ t, match t with String c _ => Some c | EmptyString => None end)) in Heq.
  vm_compute in Heq. discriminate.
Qed.

Lemma last_report total created_issues failed_issues :
  last (report_lines total created_issues failed_issues)
  = Some (match last failed_issues with
          | Some title => "  - " +:+ title
          | None => success_line
          end).
Proof.
  unfold report_lines. rewrite !last_app.
  destruct (decide (failed_issues = [])) as [->|Hsome].
  - by rewrite bool_decide_false by (intros Hne; by apply Hne).
  - rewrite bool_decide_true by done.
    destruct (last failed_issues) as [title|] eqn:Hlast.
    2:{ by apply last_None in Hlast. }
    by rewrite last_cons, fmap_last, Hlast.
Qed.

(** X16. The last line a creating run prints tells its outcome: it is the
    line that all issues were created exactly when the run exits with
    status 0; after a failure the run ends on the list of failed titles
    instead. *)
Theorem last_line_tells_the_outcome (w : world) (inv : invocation) (issues : list issue) :
  dry_run (parse_args inv) = false →
  truthy (token (parse_args inv)) = true →
  truthy (repo (parse_args inv)) = true →
  files w (file (parse_args inv)) = Loaded issues →
  (exit_status w inv = 0 ↔ last (trace w inv) = Some (Print success_line))
  ∧ (exit_status w inv ≠ 0 →
     ∃ title, last (trace w inv) = Some (Print ("  - " +:+ title))
              ∧ title ∈ (outcomes w 0 issues).2).
Proof.
  intros Hdry Htoken Hrepo Hfile.
  destruct (main_creating_report w inv issues Hdry Htoken Hrepo Hfile)
    as (before & added & Hrun).
  assert (last (trace w inv)
          = Some (Print (match last (outcomes w 0 issues).2 with
                         | Some title => "  - " +:+ title
                         | None => success_line
                         end))) as ->.
  { unfold trace. rewrite Hrun. cbn [fst].
    by rewrite !last_app, fmap_last, last_report. }
  assert (exit_status w inv = if decide ((outcomes w 0 issues).2 = []) then 0 else 1)
    as -> by (unfold exit_status; by rewrite Hrun).
  destruct (decide ((outcomes w 0 issues).2 = [])) as [Hnone|Hsome].
  - rewrite Hnone. simpl. by split.
  - destruct (last (outcomes w 0 issues).2) as [title|] eqn:Hlast.
    2:{ by apply last_None in Hlast. }
    split.
    + split; [done|]. intros Heq.
      assert ("  - " +:+ title = success_line) as Habs by congruence.
      by apply failed_line_is_not_success in Habs.
    + intros _. exists title. split; [done|]. by apply last_Some_elem_of.
Qed.

Lemma last_line_tells_the_outcome_witness :
  ∃ title, last (trace sample_world sample_invocation) = Some (Print ("  - " +:+ title))
           ∧ title ∈ (outcomes sample_world 0 sample_issues).2.
Proof.
  apply (proj2 (last_line_tells_the_outcome sample_world sample_invocation sample_issues
                  eq_refl eq_refl eq_refl eq_refl)).
  vm_compute. discriminate.
Defined.

(** ** The preview *)





(** ** Where the credential goes *)

Lemma truthy_Some (o : option string) :
  truthy o = true → ∃ t, o = Some t ∧ t ≠ "".
Proof.
  destruct o as [t|]; [|done]. simpl. intros Hne%negb_true_iff%bool_decide_eq_false.
  by exists t.
Qed.

(** The calls of a run: none, or one per record of the file. *)
Lemma posts_of_run w inv :
  posts (trace w inv) = []
  ∨ (dry_run (parse_args inv) = false
     ∧ truthy (token (parse_args inv)) = true
     ∧ truthy (repo (parse_args inv)) = true
     ∧ ∃ issues, files w (file (parse_args inv)) = Loaded issues
                 ∧ posts (trace w inv) = request_for (parse_args inv) <$> issues).
Proof.
  destruct (dry_run (parse_args inv)) eqn:Hdry.
  { left. by apply main_preview. }
  destruct (truthy (token (parse_args inv))) eqn:Htoken.
  2:{ left. unfold trace. by rewrite main_no_token. }
  destruct (truthy (repo (parse_args inv))) eqn:Hrepo.
  2:{ left. unfold trace. by destruct (main_no_repo w inv Hrepo) as [-> | ->]. }
  pose proof (main_unreadable w inv (or_intror Htoken) Hrepo) as Hload.
  destruct (files w (file (parse_args inv))) as [|e|issues] eqn:Hfile.
  - left. unfold trace. by rewrite Hload.
  - left. unfold trace. by rewrite Hload.
  - right. split; [done|]. split; [done|]. split; [done|]. exists issues. split; [done|].
    destruct (main_creating w inv issues Hdry Htoken Hrepo Hfile)
      as (before & added & after & Hrun & Hbefore & Hafter & Hposts & _).
    unfold trace. rewrite Hrun. cbn [fst].
    by rewrite !posts_app, Hbefore, Hafter, Hposts, app_nil_r.
Qed.

(** X18. Whatever the invocation, the file and the remote, every request
    of a run goes to the issues address of the repository that was named,
    on api.github.com, and carries the credential in its Authorization
    header: the one of the command line if there is one, the one of the
    environment otherwise.  No request is made in the preview, and none
    without a credential or without a repository. *)
Theorem every_request_is_authorised (w : world) (inv : invocation) (r : request) :
  r ∈ posts (trace w inv) →
  opt_dry_run inv = false
  ∧ ∃ credential repository,
      credential ≠ "" ∧ repository ≠ ""
      ∧ (opt_token inv = Some credential
         ∨ (opt_token inv = None ∧ GITHUB_TOKEN inv = Some credential))
      ∧ (opt_repo inv = Some repository
         ∨ (opt_repo inv = None ∧ GITHUB_REPOSITORY inv = Some repository))
      ∧ url r = "https://api.github.com/repos/" +:+ repository +:+ "/issues"
      ∧ headers r = [ ("Authorization", "token " +:+ credential);
                      ("Accept", "application/vnd.github.v3+json");
                      ("Content-Type", "application/json") ].
Proof.
  destruct (posts_of_run w inv)
    as [-> | (Hdry & Htoken & Hrepo & issues & _ & ->)]; [by intros ?%elem_of_nil|].
  intros (i & -> & _)%list_elem_of_fmap.
  apply truthy_Some in Htoken as (t & Ht & Hne).
  apply truthy_Some in Hrepo as (R & HR & HneR).
  split; [done|]. exists t, R. split; [done|]. split; [done|].
  unfold request_for. rewrite Ht, HR. simpl.
  unfold parse_args in Ht, HR. simpl in Ht, HR.
  repeat split.
  - destruct (opt_token inv); simpl in Ht; [left; congruence|by right].
  - destruct (opt_repo inv); simpl in HR; [left; congruence|by right].
Qed.

Lemma every_request_is_authorised_witness :
  ∃ r, r ∈ posts (trace sample_world sample_invocation)
       ∧ url r = "https://api.github.com/repos/o/r/issues"
       ∧ ("Authorization", "token ghp_token") ∈ headers r.
Proof.
  exists (request_for (parse_args sample_invocation)
            (Issue "Add tests" "Cover the signup handler" ["testing"])).
  assert (request_for (parse_args sample_invocation)
            (Issue "Add tests" "Cover the signup handler" ["testing"])
          ∈ posts (trace sample_world sample_invocation)) as Hin
    by (apply (bool_decide_unpack _); vm_compute; exact I).
  destruct (every_request_is_authorised _ _ _ Hin)
    as (_ & t & R & _ & _ & [Ht | [Ht _]] & [HR | [HR _]] & Hurl & Hheaders);
    try discriminate.
  injection Ht as <-. injection HR as <-.
  split; [exact Hin|]. split; [exact Hurl|]. rewrite Hheaders. left.
Defined.

(** X19. An option given with an empty value hides the environment: with
    an empty [--token] outside the preview, or with an empty [--repo], the
    script rejects the invocation with status 1 and without a request,
    whatever GITHUB_TOKEN and GITHUB_REPOSITORY hold. *)
Theorem empty_option_hides_environment (w : world) (inv : invocation) :
  (opt_token inv = Some "" ∧ opt_dry_run inv = false) ∨ opt_repo inv = Some "" →
  exit_status w inv = 1
  ∧ posts (trace w inv) = []
  ∧ (trace w inv = [Print token_error] ∨ trace w inv = [Print repo_error]).
Proof.
  intros [[Htoken Hdry] | Hrepo]; unfold exit_status, trace.
  - rewrite (main_no_token w inv); [by auto|done|].
    unfold parse_args. simpl. by rewrite Htoken.
  - destruct (main_no_repo w inv) as [-> | ->]; [|by auto..].
    unfold parse_args. simpl. by rewrite Hrepo.
Qed.

Lemma empty_option_hides_environment_witness :
  exit_status sample_world
    (Invocation (Some "") (Some "o/r") false None (Some "ghp_token") None) = 1.
Proof.
  apply (empty_option_hides_environment sample_world
           (Invocation (Some "") (Some "o/r") false None (Some "ghp_token") None)).
  left. split; reflexivity.
Defined.
End CreateIssuesProofs.
